(** * The recorder app: catalog, capture session and playback session

    A shallow embedding of the engine inside [App.jsx]: the handlers
    [loadRecordings], [startRecording], [stopRecording], [playSound] and
    [deleteRecording], the completion callback registered by [playSound],
    and the JavaScript primitives they rest on ([String.prototype.split],
    the [ToNumber] coercion done by [b.date - a.date], template-literal
    printing of [Date.now()], and [Array.prototype.sort]).

    Conventions.
    - Strings are sequences of 8-bit characters; the delimiters ['_'] and
      ['.'] and the digits are ASCII, so splitting behaves as on UTF-16.
    - A JavaScript number is [NaN], an infinity or an exact rational.  The
      rounding of binary64 is not modelled: the model is exact on the
      integers of magnitude below 2^53, which covers every value of
      [Date.now()] and every difference of two of them.
    - The platform (file system, audio devices, permission dialog, clock)
      is an opaque collaborator: the record [Platform] fixes how it answers,
      and every theorem quantifies over it.  Whether it refuses to open a
      recording device (a second one, or one without permission) is part
      of that answer, [rejects]; what is fixed is that deleting a missing
      file and pausing a sound that is not loaded reject, and that
      unloading a sound that is not loaded does nothing.
    - Handlers run one after the other, each to its end and each on the
      state of the latest render; a [loadRecordings()] that is called
      without [await] runs where it is called.  Every state change made
      before an exception is kept. *)

From Stdlib Require Import Ascii ZArith QArith Lia.
From Stdlib Require Import DecimalString DecimalPos DecimalN DecimalZ.
From Stdlib Require Import Sorted Permutation.
From stdpp Require Import gmap strings list sorting.

(** * JavaScript primitives *)

Module JS.

(** ** [String.prototype.split] with a one-character separator *)

Fixpoint split (sep : ascii) (s : string) : list string :=
  match s with
  | EmptyString => [EmptyString]
  | String c s' =>
      if Ascii.eqb c sep then EmptyString :: split sep s'
      else match split sep s' with
           | piece :: pieces => String c piece :: pieces
           | [] => [String c EmptyString]
           end
  end.

(** ** Numbers *)

Inductive number : Type :=
| NaN
| Num (q : Q)
| Infinity (negative : bool).

(** [m * 10^e], kept as the integer itself when [e = 0]. *)
Definition scale10 (m : Z) (e : Z) : Q :=
  match e with
  | Z0 => inject_Z m
  | Zpos p => inject_Z (m * 10 ^ Zpos p)
  | Zneg p => Qmake m (10 ^ p)
  end.

(** The binary [-] operator on numbers. *)
Definition sub (x y : number) : number :=
  match x, y with
  | NaN, _ | _, NaN => NaN
  | Num a, Num b => Num (a - b)
  | Num _, Infinity s => Infinity (negb s)
  | Infinity s, Num _ => Infinity s
  | Infinity s, Infinity s' => if Bool.eqb s s' then NaN else Infinity s
  end.

(** ** [StringToNumber]: the grammar of [StringNumericLiteral] *)

Definition isWhiteSpace (c : ascii) : bool :=
  let n := nat_of_ascii c in
  ((9 <=? n) && (n <=? 13)) || (n =? 32).

Fixpoint trimStart (s : string) : string :=
  match s with
  | String c s' => if isWhiteSpace c then trimStart s' else s
  | EmptyString => EmptyString
  end.

Fixpoint trimEnd (s : string) : string :=
  match s with
  | EmptyString => EmptyString
  | String c s' =>
      match trimEnd s' with
      | EmptyString => if isWhiteSpace c then EmptyString else String c EmptyString
      | rest => String c rest
      end
  end.

Definition trim (s : string) : string := trimEnd (trimStart s).

(** Value of a digit in a radix of at most 16, [None] for any other
    character. *)
Definition digitValue (radix : N) (c : ascii) : option N :=
  let n := N_of_ascii c in
  let v :=
    if N.leb 48 n && N.leb n 57 then Some (N.sub n 48)
    else if N.leb 97 n && N.leb n 102 then Some (N.sub n 87)
    else if N.leb 65 n && N.leb n 70 then Some (N.sub n 55)
    else None in
  match v with
  | Some d => if N.ltb d radix then Some d else None
  | None => None
  end.

(** Mathematical value of a run of digits, most significant first;
    [None] when a character is not a digit of the radix. *)
Fixpoint digitsValue (radix : N) (acc : N) (s : string) : option N :=
  match s with
  | EmptyString => Some acc
  | String c s' =>
      match digitValue radix c with
      | Some d => digitsValue radix (acc * radix + d)%N s'
      | None => None
      end
  end.

(** Longest prefix of decimal digits, and what follows it. *)
Fixpoint spanDigits (s : string) : string * string :=
  match s with
  | String c s' =>
      match digitValue 10 c with
      | Some _ => let '(ds, rest) := spanDigits s' in (String c ds, rest)
      | None => (EmptyString, s)
      end
  | EmptyString => (EmptyString, EmptyString)
  end.

(** An optional sign: [true] for ['-']. *)
Definition takeSign (s : string) : bool * string :=
  match s with
  | String "-" s' => (true, s')
  | String "+" s' => (false, s')
  | _ => (false, s)
  end.

(** [ExponentPart], or nothing; [None] when what is left is neither. *)
Definition exponentPart (s : string) : option Z :=
  match s with
  | EmptyString => Some 0%Z
  | String c s' =>
      if Ascii.eqb c "e" || Ascii.eqb c "E" then
        let '(neg, ds) := takeSign s' in
        match ds with
        | EmptyString => None
        | _ =>
            match digitsValue 10 0 ds with
            | Some e => Some (if neg then - Z.of_N e else Z.of_N e)%Z
            | None => None
            end
        end
      else None
  end.

(** [StrUnsignedDecimalLiteral] other than [Infinity]. *)
Definition unsignedDecimal (s : string) : option Q :=
  let '(ip, r1) := spanDigits s in
  let '(fp, r2) :=
    match r1 with
    | String "." r => spanDigits r
    | _ => (EmptyString, r1)
    end in
  match ip, fp with
  | EmptyString, EmptyString => None
  | _, _ =>
      match digitsValue 10 0 (ip +:+ fp), exponentPart r2 with
      | Some m, Some e =>
          Some (scale10 (Z.of_N m) (e - Z.of_nat (String.length fp)))
      | _, _ => None
      end
  end.

Definition strDecimalLiteral (s : string) : number :=
  let '(neg, u) := takeSign s in
  if String.eqb u "Infinity" then Infinity neg
  else match unsignedDecimal u with
       | Some q => Num (if neg then - q else q)
       | None => NaN
       end.

(** [NonDecimalIntegerLiteral]: [0x], [0o] and [0b] prefixes, unsigned. *)
Definition nonDecimalIntegerLiteral (s : string) : option number :=
  match s with
  | String "0" (String p ds) =>
      let radix : option N :=
        if Ascii.eqb p "x" || Ascii.eqb p "X" then Some 16%N
        else if Ascii.eqb p "o" || Ascii.eqb p "O" then Some 8%N
        else if Ascii.eqb p "b" || Ascii.eqb p "B" then Some 2%N
        else None in
      match radix with
      | Some r =>
          Some match ds with
               | EmptyString => NaN
               | _ => match digitsValue r 0 ds with
                      | Some v => Num (inject_Z (Z.of_N v))
                      | None => NaN
                      end
               end
      | None => None
      end
  | _ => None
  end.

Definition StringToNumber (s : string) : number :=
  match trim s with
  | EmptyString => Num 0
  | t => match nonDecimalIntegerLiteral t with
         | Some n => n
         | None => strDecimalLiteral t
         end
  end.

(** ** [Number::toString] on an integer, as a template literal prints
    [Date.now()]: decimal digits, with a leading ['-'] below zero (the
    form of every integer below 10^21 in magnitude). *)
Definition NumberToString (z : Z) : string :=
  NilEmpty.string_of_int (Z.to_int z).

(** ** [Array.prototype.sort] with a comparator

    [SortCompare] reads the comparator's result: [NaN] counts as [+0].
    The sort is stable (ES2019).  It is modelled as a stable insertion
    sort; for a consistent comparator every stable sort returns the same
    array, for an inconsistent one the order is implementation-defined
    and only the fact that the result is a permutation is meaningful. *)

Definition SortCompare {A} (comparefn : A -> A -> number) (x y : A) : comparison :=
  match comparefn x y with
  | NaN => Eq
  | Num v => (v ?= 0)%Q
  | Infinity true => Lt
  | Infinity false => Gt
  end.

Section Sort.
Context {A : Type} (comparefn : A -> A -> number).

(** [x] goes after every [y] that must come before it. *)
Fixpoint insert (x : A) (l : list A) : list A :=
  match l with
  | [] => [x]
  | y :: l' =>
      match SortCompare comparefn x y with
      | Gt => y :: insert x l'
      | _ => x :: l
      end
  end.

Fixpoint sort (l : list A) : list A :=
  match l with
  | [] => []
  | x :: l' => insert x (sort l')
  end.
End Sort.

End JS.

(** * The application *)

(** ** Data *)

Inductive PermissionStatus : Type := granted | denied | undetermined.

Inductive PlatformOS : Type := ios | android | otherOS.

(** [date] is what [loadRecordings] stores: the text cut out of the file
    name, or the number read from the clock. *)
Inductive DateField : Type :=
| DateStr (s : string)
| DateNum (t : Z).

Record Item : Type := mkItem {
  name : string;
  uri : string;
  date : DateField;
}.

(** The [useState] cells and the permission hook of [App].  Handles of
    recorder and sound objects are natural numbers. *)
Record AppState : Type := mkApp {
  recording : option nat;
  sound : option nat;
  isRecording : bool;
  isPlaying : bool;
  playingUri : option string;
  recordings : list Item;
  permissionResponse : option PermissionStatus;
}.

Definition initialApp : AppState :=
  {| recording := None; sound := None; isRecording := false;
     isPlaying := false; playingUri := None; recordings := [];
     permissionResponse := None |}.

(** ** The platform *)

Inductive Call : Type :=
| getInfoAsync
| makeDirectoryAsync
| readDirectoryAsync
| moveAsync (from to : string)
| deleteAsync (target : string)
| requestPermission
| setAudioModeAsync
| Recording_createAsync
| stopAndUnloadAsync (r : nat)
| Sound_createAsync (source : string)
| pauseAsync (h : nat)
| unloadAsync (h : nat).

Inductive Event : Type :=
| Called (c : Call)
| Alert (title message : string)
| ConsoleLog (message : string)
| ConsoleError (message : string).

(** How the platform answers.  [rejects history c] tells whether the
    promise of call [c] rejects after the events [history] (newest first);
    [enumerate] is the order in which a directory reports its entries;
    [now k] is the [k]-th reading of the clock. *)
Record Platform : Type := mkPlatform {
  OS : PlatformOS;
  documentDirectory : string;
  now : nat -> Z;
  rejects : list Event -> Call -> bool;
  enumerate : gset string -> list string;
  permissionAnswer : list Event -> PermissionStatus;
  getURI : nat -> string;
}.

(** A loaded playback resource. *)
Record Player : Type := mkPlayer {
  source : string;
  playing : bool;
}.

(** The React state as of the latest render, and the state of the
    platform: the entries of the recordings directory ([None] while the
    directory does not exist), the open capture resources, the loaded
    playback resources, the sounds that carry the completion callback. *)
Record World : Type := mkWorld {
  app : AppState;
  dir : option (gset string);
  recorders : gset nat;
  players : gmap nat Player;
  listeners : gset nat;
  next_handle : nat;
  clock_reads : nat;
  trace : list Event;
}.

Definition initialWorld : World :=
  {| app := initialApp; dir := None; recorders := ∅; players := ∅;
     listeners := ∅; next_handle := 0; clock_reads := 0; trace := [] |}.

Definition with_app (f : AppState -> AppState) (w : World) : World :=
  mkWorld (f (app w)) (dir w) (recorders w) (players w) (listeners w)
          (next_handle w) (clock_reads w) (trace w).
Definition with_dir (d : option (gset string)) (w : World) : World :=
  mkWorld (app w) d (recorders w) (players w) (listeners w)
          (next_handle w) (clock_reads w) (trace w).
Definition with_recorders (r : gset nat) (w : World) : World :=
  mkWorld (app w) (dir w) r (players w) (listeners w)
          (next_handle w) (clock_reads w) (trace w).
Definition with_players (p : gmap nat Player) (w : World) : World :=
  mkWorld (app w) (dir w) (recorders w) p (listeners w)
          (next_handle w) (clock_reads w) (trace w).
Definition with_listeners (l : gset nat) (w : World) : World :=
  mkWorld (app w) (dir w) (recorders w) (players w) l
          (next_handle w) (clock_reads w) (trace w).
Definition with_next_handle (n : nat) (w : World) : World :=
  mkWorld (app w) (dir w) (recorders w) (players w) (listeners w)
          n (clock_reads w) (trace w).
Definition with_clock_reads (n : nat) (w : World) : World :=
  mkWorld (app w) (dir w) (recorders w) (players w) (listeners w)
          (next_handle w) n (trace w).
Definition with_trace (t : list Event) (w : World) : World :=
  mkWorld (app w) (dir w) (recorders w) (players w) (listeners w)
          (next_handle w) (clock_reads w) t.

(** ** Asynchronous code: state and exceptions *)

Inductive Error : Type :=
| Rejected (c : Call)
| TypeError.

Inductive Outcome (A : Type) : Type :=
| Ok (a : A)
| Throw (e : Error).
Arguments Ok {A} a.
Arguments Throw {A} e.

Definition M (A : Type) : Type := World -> Outcome A * World.

#[global] Instance M_ret : MRet M := fun A a w => (Ok a, w).
#[global] Instance M_bind : MBind M := fun A B f m w =>
  match m w with
  | (Ok a, w') => f a w'
  | (Throw e, w') => (Throw e, w')
  end.

Definition throw {A} (e : Error) : M A := fun w => (Throw e, w).

(** [try { body } catch (e) { handler e }] *)
Definition tryCatch (body : M unit) (handler : Error -> M unit) : M unit :=
  fun w =>
    match body w with
    | (Ok a, w') => (Ok a, w')
    | (Throw e, w') => handler e w'
    end.

Definition get : M World := fun w => (Ok w, w).
Definition modify (f : World -> World) : M unit := fun w => (Ok tt, f w).

Definition exec {A} (m : M A) (w : World) : World := snd (m w).

Fixpoint mapM {A B} (f : A -> M B) (l : list A) : M (list B) :=
  match l with
  | [] => mret []
  | x :: l' => y ← f x; ys ← mapM f l'; mret (y :: ys)
  end.

(** ** Primitive operations *)

Section Handlers.
Variable P : Platform.

Definition RECORDINGS_DIR : string := documentDirectory P +:+ "recordings/".

Definition getFileExtension : string :=
  match OS P with
  | ios => ".wav"
  | android => ".ogg"
  | otherOS => ".m4a"
  end.

Definition emit (e : Event) : M unit :=
  modify (fun w => with_trace (e :: trace w) w).

Definition console_log (message : string) : M unit := emit (ConsoleLog message).
Definition console_error (message : string) : M unit := emit (ConsoleError message).
Definition Alert_alert (title message : string) : M unit := emit (Alert title message).

(** A platform call is recorded, and rejects when the platform says so. *)
Definition call (c : Call) : M unit :=
  fun w =>
    let w' := with_trace (Called c :: trace w) w in
    if rejects P (trace w) c then (Throw (Rejected c), w') else (Ok tt, w').

Definition Date_now : M Z :=
  fun w => (Ok (now P (clock_reads w)), with_clock_reads (S (clock_reads w)) w).

(** The state setters. *)
Definition setRecording (v : option nat) : M unit :=
  modify (with_app (fun s =>
    mkApp v (sound s) (isRecording s) (isPlaying s) (playingUri s)
          (recordings s) (permissionResponse s))).
Definition setSound (v : option nat) : M unit :=
  modify (with_app (fun s =>
    mkApp (recording s) v (isRecording s) (isPlaying s) (playingUri s)
          (recordings s) (permissionResponse s))).
Definition setIsRecording (v : bool) : M unit :=
  modify (with_app (fun s =>
    mkApp (recording s) (sound s) v (isPlaying s) (playingUri s)
          (recordings s) (permissionResponse s))).
Definition setIsPlaying (v : bool) : M unit :=
  modify (with_app (fun s =>
    mkApp (recording s) (sound s) (isRecording s) v (playingUri s)
          (recordings s) (permissionResponse s))).
Definition setPlayingUri (v : option string) : M unit :=
  modify (with_app (fun s =>
    mkApp (recording s) (sound s) (isRecording s) (isPlaying s) v
          (recordings s) (permissionResponse s))).
Definition setRecordings (v : list Item) : M unit :=
  modify (with_app (fun s =>
    mkApp (recording s) (sound s) (isRecording s) (isPlaying s) (playingUri s)
          v (permissionResponse s))).
Definition setPermissionResponse (v : option PermissionStatus) : M unit :=
  modify (with_app (fun s =>
    mkApp (recording s) (sound s) (isRecording s) (isPlaying s) (playingUri s)
          (recordings s) v)).

(** The state a handler sees is the one of the render that created it. *)
Definition rendered : M AppState := fun w => (Ok (app w), w).

(** *** File system *)

Fixpoint stripPrefix (prefix s : string) : option string :=
  match prefix, s with
  | EmptyString, _ => Some s
  | String a prefix', String b s' =>
      if Ascii.eqb a b then stripPrefix prefix' s' else None
  | String _ _, EmptyString => None
  end.

(** [FileSystem.getInfoAsync(RECORDINGS_DIR)]: the [exists] field. *)
Definition FileSystem_getInfoAsync : M bool :=
  call getInfoAsync;; w ← get; mret (bool_decide (is_Some (dir w))).

Definition FileSystem_makeDirectoryAsync : M unit :=
  call makeDirectoryAsync;;
  w ← get;
  match dir w with
  | None => modify (with_dir (Some ∅))
  | Some _ => throw (Rejected makeDirectoryAsync)
  end.

Definition FileSystem_readDirectoryAsync : M (list string) :=
  call readDirectoryAsync;;
  w ← get;
  match dir w with
  | Some entries => mret (enumerate P entries)
  | None => throw (Rejected readDirectoryAsync)
  end.

(** Moving a file to [to]: an entry appears in the recordings directory
    when [to] lies in it. *)
Definition FileSystem_moveAsync (from to : string) : M unit :=
  call (moveAsync from to);;
  w ← get;
  match stripPrefix RECORDINGS_DIR to with
  | Some filename =>
      match dir w with
      | Some entries => modify (with_dir (Some ({[filename]} ∪ entries)))
      | None => throw (Rejected (moveAsync from to))
      end
  | None => mret tt
  end.

(** Deleting a file that does not exist rejects. *)
Definition FileSystem_deleteAsync (target : string) : M unit :=
  call (deleteAsync target);;
  w ← get;
  match stripPrefix RECORDINGS_DIR target, dir w with
  | Some filename, Some entries =>
      if bool_decide (filename ∈ entries)
      then modify (with_dir (Some (entries ∖ {[filename]})))
      else throw (Rejected (deleteAsync target))
  | _, _ => throw (Rejected (deleteAsync target))
  end.

(** *** Permission hook *)

Definition requestPermissionAsync : M unit :=
  w ← get;
  call requestPermission;;
  setPermissionResponse (Some (permissionAnswer P (trace w))).

(** *** Audio *)

Definition Audio_setAudioModeAsync : M unit := call setAudioModeAsync.

Definition fresh_handle : M nat :=
  w ← get; modify (with_next_handle (S (next_handle w)));; mret (next_handle w).

(** [Audio.Recording.createAsync]: opens the capture device. *)
Definition Audio_Recording_createAsync : M nat :=
  call Recording_createAsync;;
  r ← fresh_handle;
  modify (fun w => with_recorders ({[r]} ∪ recorders w) w);;
  mret r.

Definition recording_stopAndUnloadAsync (r : nat) : M unit :=
  call (stopAndUnloadAsync r);;
  modify (fun w => with_recorders (recorders w ∖ {[r]}) w).

(** [Audio.Sound.createAsync({ uri }, { shouldPlay: true })] *)
Definition Audio_Sound_createAsync (source : string) : M nat :=
  call (Sound_createAsync source);;
  h ← fresh_handle;
  modify (fun w => with_players (<[h := mkPlayer source true]> (players w)) w);;
  mret h.

(** Pausing a sound that is not loaded rejects. *)
Definition sound_pauseAsync (h : nat) : M unit :=
  call (pauseAsync h);;
  w ← get;
  match players w !! h with
  | Some p => modify (with_players (<[h := mkPlayer (source p) false]> (players w)))
  | None => throw (Rejected (pauseAsync h))
  end.

(** Unloading releases the playback resource; on a sound that is not
    loaded it does nothing. *)
Definition sound_unloadAsync (h : nat) : M unit :=
  call (unloadAsync h);;
  modify (fun w => with_players (delete h (players w)) w).

Definition sound_setOnPlaybackStatusUpdate (h : nat) : M unit :=
  modify (fun w => with_listeners ({[h]} ∪ listeners w) w).

(** ** The handlers of [App] *)

Definition ensureDirExists : M unit :=
  dirInfo_exists ← FileSystem_getInfoAsync;
  if dirInfo_exists : bool then mret tt
  else FileSystem_makeDirectoryAsync;;
       console_log "Recordings directory created".

(** [filename.split('_')[1]?.split('.')[0]] *)
Definition timestampSegment (filename : string) : option string :=
  second ← JS.split "_" filename !! 1;
  JS.split "." second !! 0.

(** [segment || Date.now()]: [undefined] and the empty string are falsy. *)
Definition dateOf (filename : string) : M DateField :=
  match timestampSegment filename with
  | Some (String c s) => mret (DateStr (String c s))
  | Some EmptyString | None => t ← Date_now; mret (DateNum t)
  end.

Definition toItem (filename : string) : M Item :=
  d ← dateOf filename;
  mret {| name := filename; uri := RECORDINGS_DIR +:+ filename; date := d |}.

Definition ToNumber (d : DateField) : JS.number :=
  match d with
  | DateStr s => JS.StringToNumber s
  | DateNum t => JS.Num (inject_Z t)
  end.

(** [(a, b) => b.date - a.date] *)
Definition byDate (a b : Item) : JS.number :=
  JS.sub (ToNumber (date b)) (ToNumber (date a)).

Definition loadRecordings_body : M unit :=
  ensureDirExists;;
  files ← FileSystem_readDirectoryAsync;
  mapped ← mapM toItem files;
  let fileList := JS.sort byDate mapped in
  setRecordings fileList.

Definition loadRecordings : M unit :=
  tryCatch loadRecordings_body
           (fun error => console_error "Error loading recordings").

Definition startRecording_body (s : AppState) : M unit :=
  status ← match permissionResponse s with
           | Some status => mret status
           | None => throw TypeError
           end;
  match status with
  | granted => mret tt
  | _ => console_log "Requesting permission..";; requestPermissionAsync
  end;;
  Audio_setAudioModeAsync;;
  r ← Audio_Recording_createAsync;
  setRecording (Some r);;
  setIsRecording true;;
  console_log "Recording started".

Definition startRecording : M unit :=
  s ← rendered;
  tryCatch (startRecording_body s)
           (fun err => console_error "Failed to start recording";;
                       Alert_alert "Error" "Failed to start recording").

Definition newFilename (timestamp : Z) : string :=
  "rec_" +:+ JS.NumberToString timestamp +:+ getFileExtension.

Definition stopRecording : M unit :=
  s ← rendered;
  match recording s with
  | None => mret tt
  | Some r =>
      console_log "Stopping recording..";;
      setIsRecording false;;
      recording_stopAndUnloadAsync r;;
      let from := getURI P r in
      setRecording None;;
      timestamp ← Date_now;
      let newUri := RECORDINGS_DIR +:+ newFilename timestamp in
      tryCatch (FileSystem_moveAsync from newUri;;
                console_log "File saved to";;
                loadRecordings)
               (fun error => console_error "Error saving file")
  end.

Definition playSound (uri : string) : M unit :=
  s ← rendered;
  tryCatch
    (match sound s with
     | Some snd =>
         if bool_decide (playingUri s = Some uri) && isPlaying s then
           sound_pauseAsync snd;;
           setIsPlaying false
         else
           sound_unloadAsync snd;;
           newSound ← Audio_Sound_createAsync uri;
           setSound (Some newSound);;
           setPlayingUri (Some uri);;
           setIsPlaying true;;
           sound_setOnPlaybackStatusUpdate newSound
     | None =>
         newSound ← Audio_Sound_createAsync uri;
         setSound (Some newSound);;
         setPlayingUri (Some uri);;
         setIsPlaying true;;
         sound_setOnPlaybackStatusUpdate newSound
     end)
    (fun error => console_error "Error playing sound";;
                  Alert_alert "Error" "Could not play audio file").

(** The callback given to [setOnPlaybackStatusUpdate]. *)
Definition onPlaybackStatusUpdate (didJustFinish : bool) : M unit :=
  if didJustFinish then setIsPlaying false;; setPlayingUri None
  else mret tt.

Definition deleteRecording (uri : string) : M unit :=
  s ← rendered;
  tryCatch
    (match sound s with
     | Some snd =>
         if bool_decide (playingUri s = Some uri) then
           sound_unloadAsync snd;;
           setPlayingUri None;;
           setIsPlaying false
         else mret tt
     | None => mret tt
     end;;
     FileSystem_deleteAsync uri;;
     console_log "Deleted file";;
     loadRecordings)
    (fun error => console_error "Error deleting file").

(** [onPress={isRecording ? stopRecording : startRecording}] *)
Definition onPressRecord : M unit :=
  s ← rendered;
  if isRecording s then stopRecording else startRecording.

(** The platform reports that sound [h] played to its end: the sound
    stops playing and its callback, if registered, runs with
    [didJustFinish]. *)
Definition playbackFinished (h : nat) : M unit :=
  w ← get;
  match players w !! h with
  | Some p =>
      if playing p then
        modify (with_players (<[h := mkPlayer (source p) false]> (players w)));;
        if bool_decide (h ∈ listeners w) then onPlaybackStatusUpdate true
        else mret tt
      else mret tt
  | None => mret tt
  end.

End Handlers.

(** * Vocabulary of the statements *)

(** ** Strings *)

Fixpoint string_forallb (f : ascii -> bool) (s : string) : bool :=
  match s with
  | EmptyString => true
  | String c s' => f c && string_forallb f s'
  end.

Definition isDecimalDigit (c : ascii) : bool :=
  match JS.digitValue 10 c with Some _ => true | None => false end.

Definition isNot (sep c : ascii) : bool := negb (Ascii.eqb c sep).

(** ** Sorting *)

(** The comparator orders the elements of [l] by decreasing key. *)
Definition descending_on {A} (comparefn : A -> A -> JS.number) (key : A -> Q)
    (l : list A) : Prop :=
  forall a b, a ∈ l -> b ∈ l ->
    JS.SortCompare comparefn a b = (key b ?= key a)%Q.

Definition key_ge {A} (key : A -> Q) (a b : A) : Prop := (key b <= key a)%Q.

Definition key_is {A} (key : A -> Q) (q : Q) (a : A) : bool := Qeq_bool (key a) q.

(** ** The catalog *)

(** The directory reports each of its entries once, in some order. *)
Definition faithful (P : Platform) : Prop :=
  forall entries : gset string,
    NoDup (enumerate P entries) /\ forall f, f ∈ enumerate P entries <-> f ∈ entries.

(** The catalog entry of a recording committed at time [t]. *)
Definition recordingOf (P : Platform) (t : Z) : Item :=
  {| name := newFilename P t;
     uri := RECORDINGS_DIR P +:+ newFilename P t;
     date := DateStr (JS.NumberToString t) |}.

Definition keyOf (it : Item) : Q :=
  match ToNumber (date it) with
  | JS.Num q => q
  | _ => 0
  end.

Definition finiteDate (it : Item) : Prop :=
  exists q, ToNumber (date it) = JS.Num q.

(** The integers a binary64 holds exactly; every value of [Date.now()]
    is one. *)
Definition safeInteger (t : Z) : Prop := (Z.abs t < 2 ^ 53)%Z.

(** The date of the entry is such an integer. *)
Definition timestamped (it : Item) : Prop :=
  exists t, safeInteger t /\ ToNumber (date it) = JS.Num (inject_Z t).

(** What [files.map(...)] yields for any directory listing: one entry per
    file, in the order of the listing; the clock is read once for each
    file whose name carries no segment. *)
Definition mapped_ok (P : Platform) (k k' : nat) (it : Item) : Prop :=
  uri it = RECORDINGS_DIR P +:+ name it
  /\ match timestampSegment (name it) with
     | Some (String c s) => date it = DateStr (String c s)
     | Some EmptyString | None =>
         exists i, (k <= i < k')%nat /\ date it = DateNum (now P i)
     end.

(** The world once [getInfoAsync] and [readDirectoryAsync] have answered. *)
Definition listed (w : World) : World :=
  with_trace (Called readDirectoryAsync :: Called getInfoAsync :: trace w) w.

(** Both calls of a listing are answered. *)
Definition listing_answered (P : Platform) (w : World) : Prop :=
  rejects P (trace w) getInfoAsync = false
  /\ rejects P (Called getInfoAsync :: trace w) readDirectoryAsync = false.

(** What a listing never touches: the two sessions and the permission. *)
Definition sessions_kept (w w' : World) : Prop :=
  recording (app w') = recording (app w)
  /\ sound (app w') = sound (app w)
  /\ isRecording (app w') = isRecording (app w)
  /\ isPlaying (app w') = isPlaying (app w)
  /\ playingUri (app w') = playingUri (app w)
  /\ permissionResponse (app w') = permissionResponse (app w)
  /\ recorders w' = recorders w
  /\ players w' = players w
  /\ listeners w' = listeners w
  /\ next_handle w' = next_handle w.

(** ** The playback session *)

(** [Loaded(id, playing)]: the sound cell holds a handle whose resource is
    loaded from [id]; [Empty]: no active identity. *)
Definition Loaded (w : World) (h : nat) (id : string) (is_playing : bool) : Prop :=
  sound (app w) = Some h
  /\ playingUri (app w) = Some id
  /\ isPlaying (app w) = is_playing
  /\ players w !! h = Some (mkPlayer id is_playing).

Definition Empty (w : World) : Prop :=
  playingUri (app w) = None /\ isPlaying (app w) = false.

(** Every platform call is answered. *)
Definition reliable (P : Platform) : Prop :=
  forall history c, rejects P history c = false.

(** ** Concrete platforms and runs *)

Definition demoClock (k : nat) : Z :=
  match k with
  | 0%nat => 100
  | 1%nat => 200
  | 2%nat => 150
  | _ => 1000 + Z.of_nat k
  end.

Definition demoPlatform (refuses : Call -> bool) (answer : PermissionStatus) : Platform :=
  {| OS := ios;
     documentDirectory := "file:///doc/";
     now := demoClock;
     rejects := fun _ c => refuses c;
     enumerate := elements;
     permissionAnswer := fun _ => answer;
     getURI := fun _ => "file:///cache/capture.wav" |}.

(** A platform that answers every call and grants the permission. *)
Definition willing : Platform := demoPlatform (fun _ => false) granted.

(** One whose user denies the permission, and that opens the device all
    the same. *)
Definition denying : Platform := demoPlatform (fun _ => false) denied.

(** One that cannot enumerate the directory. *)
Definition unreadable : Platform :=
  demoPlatform (fun c => match c with readDirectoryAsync => true | _ => false end)
               granted.

(** One that refuses to open the recording device. *)
Definition deviceless : Platform :=
  demoPlatform (fun c => match c with Recording_createAsync => true | _ => false end)
               denied.

(** The app once mounted, with the permission hook resolved to [status]. *)
Definition mounted (P : Platform) (status : PermissionStatus) : World :=
  exec (setPermissionResponse (Some status))
       (exec (loadRecordings P) initialWorld).

Definition recordOnce (P : Platform) (w : World) : World :=
  exec (stopRecording P) (exec (startRecording P) w).

(** Three recordings, committed at 100, 200 and 150. *)
Definition threeCommits : World :=
  recordOnce willing (recordOnce willing (recordOnce willing (mounted willing granted))).

Definition uri150 : string := "file:///doc/recordings/rec_150.wav".
Definition uri200 : string := "file:///doc/recordings/rec_200.wav".

Definition playing150 : World := exec (playSound willing uri150) threeCommits.

(** A directory holding one file whose segment is not a number. *)
Definition strayFile : World :=
  with_dir (Some {["rec_abc.wav"]}) (mounted willing granted).

(** A directory holding one file whose name has no segment at all. *)
Definition unnamedFile : World :=
  with_dir (Some {["memo.wav"]}) (mounted willing granted).

Definition capturing : World := exec (startRecording willing) (mounted willing granted).

(** * The rows of the list and the life of the component *)

(** ** [parseInt] with no radix *)

(** Longest prefix of digits of the radix, and what follows it. *)
Fixpoint spanRadix (radix : N) (s : string) : string * string :=
  match s with
  | String c s' =>
      match JS.digitValue radix c with
      | Some _ => let '(ds, rest) := spanRadix radix s' in (String c ds, rest)
      | None => (EmptyString, s)
      end
  | EmptyString => (EmptyString, EmptyString)
  end.

(** Leading white space is skipped, a sign is read, [0x] selects radix
    16, and the digits that follow are read up to the first character
    that is none; with no digit the result is [NaN]. *)
Definition parseInt (s : string) : JS.number :=
  let '(negative, rest) := JS.takeSign (JS.trimStart s) in
  let '(radix, body) :=
    match rest with
    | String "0" (String x body) =>
        if Ascii.eqb x "x" || Ascii.eqb x "X" then (16%N, body) else (10%N, rest)
    | _ => (10%N, rest)
    end in
  match spanRadix radix body with
  | (EmptyString, _) => JS.NaN
  | (digits, _) =>
      match JS.digitsValue radix 0 digits with
      | Some v =>
          JS.Num (if negative then - inject_Z (Z.of_N v) else inject_Z (Z.of_N v))
      | None => JS.NaN
      end
  end.

(** ** [renderItem] *)

(** What a row shows: its key, the time value handed to [new Date] (the
    text that [toLocaleString] makes of it depends on the locale and is
    left out), and the icon of its play button. *)
Record Row : Type := mkRow {
  key : string;
  fileDate : JS.number;
  playIcon : string;
}.

(** [item.name.split('_')[1]], converted to a string as [parseInt] does:
    a missing element reads ["undefined"]. *)
Definition secondPiece (filename : string) : string :=
  default "undefined" (JS.split "_" filename !! 1).

Definition renderItem (s : AppState) (item : Item) : Row :=
  let isThisPlaying := isPlaying s && bool_decide (playingUri s = Some (uri item)) in
  let date := parseInt (secondPiece (name item)) in
  {| key := uri item;
     fileDate := date;
     playIcon := if isThisPlaying then "pause" else "play" |}.

(** [recordings.map(renderItem)] *)
Definition renderList (s : AppState) : list Row := renderItem s <$> recordings s.

(** ** What can happen to the component *)

(** The user presses the record button, the play or the delete button of
    a row; a sound plays to its end; the permission hook learns the
    status; the list is loaded again. *)
Inductive Action : Type :=
| PressRecord
| PressPlay (target : string)
| PressDelete (target : string)
| SoundEnds (h : nat)
| PermissionKnown (status : PermissionStatus)
| Reload.

Definition perform (P : Platform) (a : Action) : M unit :=
  match a with
  | PressRecord => onPressRecord P
  | PressPlay target => playSound P target
  | PressDelete target => deleteRecording P target
  | SoundEnds h => playbackFinished h
  | PermissionKnown status => setPermissionResponse (Some status)
  | Reload => loadRecordings P
  end.

(** A component that has just been created: the initial state cells and
    no audio resource; the directory, the clock and the handle counter
    are whatever the platform has. *)
Definition pristine (w : World) : Prop :=
  app w = initialApp /\ recorders w = ∅ /\ players w = ∅ /\ listeners w = ∅.

Inductive reachable (P : Platform) : World -> Prop :=
| reachable_pristine w : pristine w -> reachable P w
| reachable_perform w a : reachable P w -> reachable P (exec (perform P a) w).

(** A sequence of events, performed one after the other. *)
Definition run (P : Platform) (actions : list Action) (w : World) : World :=
  foldl (fun w a => exec (perform P a) w) w actions.

(** The list is loaded, the permission is granted, a recording is made,
    it is played, and a second capture is started while it plays. *)
Definition busyDay : list Action :=
  [Reload; PermissionKnown granted; PressRecord; PressRecord;
   PressPlay "file:///doc/recordings/rec_100.wav"; PressRecord].

Definition busy : World := run willing busyDay initialWorld.

(** ** Invariants *)



(** The platform never fails to stop a capture. *)
Definition stops_reliably (P : Platform) : Prop :=
  forall history r, rejects P history (stopAndUnloadAsync r) = false.


(** Every entry of the view lies in the recordings directory under its
    own name, and no two entries share a location. *)
Definition catalog_located (P : Platform) (w : World) : Prop :=
  Forall (fun it => uri it = RECORDINGS_DIR P +:+ name it) (recordings (app w))
  /\ NoDup (uri <$> recordings (app w)).

(** ** More names and platforms for the statements *)

(** The name carries a segment that reads as a timestamp. *)
Definition numericName (f : string) : Prop :=
  exists c s t,
    timestampSegment f = Some (String c s)
    /\ safeInteger t
    /\ JS.StringToNumber (String c s) = JS.Num (inject_Z t).

(** A directory with two files of one timestamp and a file of another
    prefix. *)
Definition mixedNames : World :=
  with_dir (Some {["rec_5.wav"; "rec_5.ogg"; "old_7"]}) (mounted willing granted).

(** Platforms that fail at one call: moving a file, stopping a capture,
    loading a sound. *)
Definition fullDisk : Platform :=
  demoPlatform (fun c => match c with moveAsync _ _ => true | _ => false end) granted.
Definition stuckDevice : Platform :=
  demoPlatform (fun c => match c with stopAndUnloadAsync _ => true | _ => false end) granted.
Definition noCodec : Platform :=
  demoPlatform (fun c => match c with Sound_createAsync _ => true | _ => false end) granted.


(** ** Unfolding the operations *)

Ltac unfold_ops :=
  unfold FileSystem_getInfoAsync, FileSystem_makeDirectoryAsync,
    FileSystem_readDirectoryAsync, FileSystem_moveAsync, FileSystem_deleteAsync,
    requestPermissionAsync, Audio_setAudioModeAsync, Audio_Recording_createAsync,
    recording_stopAndUnloadAsync, Audio_Sound_createAsync, sound_pauseAsync,
    sound_unloadAsync, sound_setOnPlaybackStatusUpdate, fresh_handle,
    setRecording, setSound, setIsRecording, setIsPlaying, setPlayingUri,
    setRecordings, setPermissionResponse, rendered, Date_now,
    console_log, console_error, Alert_alert, emit, call, throw, get, modify,
    tryCatch, exec, mbind, M_bind, mret, M_ret in *.

Ltac unfold_handlers :=
  unfold perform, onPressRecord, startRecording, startRecording_body,
    stopRecording, playSound, deleteRecording, playbackFinished,
    onPlaybackStatusUpdate in *.

(** Case analysis over a run: on the answers of the platform, on the
    cells that are read, and on the outcome of a listing, which [shape]
    describes. *)
Ltac split_run_with shape :=
  repeat (simpl in *;
    match goal with
    | H : stops_reliably ?P |- context [rejects ?P ?h (stopAndUnloadAsync ?r)] =>
        rewrite (H h r)
    | |- context [loadRecordings ?P ?w0] =>
        let H := fresh "Hload" in
        destruct (shape P w0) as (?recs & ?d & ?k & ?t & H & ?Hd & ?Hrecs);
        rewrite H; clear H
    | |- context [if rejects ?P ?h ?c then _ else _] => destruct (rejects P h c) eqn:?
    | |- context [match ?x with Some _ => _ | None => _ end] => destruct x eqn:?
    | |- context [match ?x with granted => _ | _ => _ end] => destruct x
    | |- context [if ?b then _ else _] => destruct b eqn:?
    end); simpl in *.

(** * Facts about the primitives *)

Lemma string_forallb_app f s1 s2 :
  string_forallb f (s1 +:+ s2) = string_forallb f s1 && string_forallb f s2.
Proof.
  induction s1 as [|c s1 IH]; simpl; [reflexivity|].
  rewrite IH. apply andb_assoc.
Qed.

Lemma string_forallb_impl (f g : ascii -> bool) s :
  (forall c, f c = true -> g c = true) ->
  string_forallb f s = true -> string_forallb g s = true.
Proof.
  intros Hfg. induction s as [|c s IH]; simpl; [reflexivity|].
  intros [Hc Hs]%andb_prop. rewrite (Hfg _ Hc), (IH Hs). reflexivity.
Qed.

Lemma string_app_empty_r (s : string) : s +:+ "" = s.
Proof.
  induction s as [|c s IH]; [reflexivity|].
  change (String c (s +:+ "") = String c s). f_equal. exact IH.
Qed.

Lemma split_no_sep sep s :
  string_forallb (isNot sep) s = true -> JS.split sep s = [s].
Proof.
  induction s as [|c s IH]; simpl; [reflexivity|].
  unfold isNot at 1. intros [Hc Hs]%andb_prop.
  apply negb_true_iff in Hc. rewrite Hc, (IH Hs). reflexivity.
Qed.

Lemma split_app_sep sep s1 s2 :
  string_forallb (isNot sep) s1 = true ->
  JS.split sep (s1 +:+ String sep s2) = s1 :: JS.split sep s2.
Proof.
  induction s1 as [|c s1 IH]; simpl.
  - intros _. rewrite Ascii.eqb_refl. reflexivity.
  - unfold isNot at 1. intros [Hc Hs]%andb_prop.
    apply negb_true_iff in Hc. rewrite Hc, (IH Hs). reflexivity.
Qed.

(** *** Printing and reading back an integer *)

Lemma uint_all_digits (d : Decimal.uint) :
  string_forallb isDecimalDigit (NilEmpty.string_of_uint d) = true.
Proof. induction d; simpl; auto. Qed.

Lemma digitsValue_uint_acc (d : Decimal.uint) (acc : positive) :
  JS.digitsValue 10 (Npos acc) (NilEmpty.string_of_uint d)
  = Some (Npos (Pos.of_uint_acc d acc)).
Proof.
  revert acc. induction d; intros acc; simpl; try reflexivity;
    unfold JS.digitValue; simpl;
    match goal with
    | |- JS.digitsValue _ ?n _ = Some (Npos (Pos.of_uint_acc _ ?a)) =>
        replace n with (Npos a) by lia
    end; apply IHd.
Qed.

Lemma digitsValue_uint (d : Decimal.uint) :
  JS.digitsValue 10 0 (NilEmpty.string_of_uint d) = Some (N.of_uint d).
Proof.
  induction d; simpl; try reflexivity; try exact IHd;
    unfold JS.digitValue; simpl; apply digitsValue_uint_acc.
Qed.

Lemma spanDigits_all s :
  string_forallb isDecimalDigit s = true -> JS.spanDigits s = (s, EmptyString).
Proof.
  induction s as [|c s IH]; simpl; [reflexivity|].
  unfold isDecimalDigit at 1. intros [Hc Hs]%andb_prop.
  destruct (JS.digitValue 10 c); [|discriminate].
  rewrite (IH Hs). reflexivity.
Qed.

Lemma digit_not_whitespace c : isDecimalDigit c = true -> JS.isWhiteSpace c = false.
Proof.
  destruct c as [[] [] [] [] [] [] [] []]; vm_compute; congruence.
Qed.

Lemma trimEnd_id s :
  string_forallb (fun c => negb (JS.isWhiteSpace c)) s = true -> JS.trimEnd s = s.
Proof.
  induction s as [|c s IH]; simpl; [reflexivity|].
  intros [Hc Hs]%andb_prop. rewrite (IH Hs).
  apply negb_true_iff in Hc. rewrite Hc. destruct s; reflexivity.
Qed.

Lemma trim_id s :
  string_forallb (fun c => negb (JS.isWhiteSpace c)) s = true -> JS.trim s = s.
Proof.
  intros H. unfold JS.trim.
  assert (JS.trimStart s = s) as ->.
  { destruct s as [|c s]; [reflexivity|]. simpl in *.
    apply andb_prop in H as [Hc _]. apply negb_true_iff in Hc.
    rewrite Hc. reflexivity. }
  apply trimEnd_id, H.
Qed.

Lemma digits_no_whitespace s :
  string_forallb isDecimalDigit s = true ->
  string_forallb (fun c => negb (JS.isWhiteSpace c)) s = true.
Proof.
  apply string_forallb_impl. intros c Hc.
  rewrite (digit_not_whitespace _ Hc). reflexivity.
Qed.

Lemma nonDecimal_digits s :
  string_forallb isDecimalDigit s = true -> JS.nonDecimalIntegerLiteral s = None.
Proof.
  intros H. destruct s as [|a s]; [reflexivity|].
  destruct a as [[] [] [] [] [] [] [] []]; try reflexivity.
  destruct s as [|b s]; [reflexivity|].
  simpl in H. apply andb_prop in H as [Hb _].
  destruct b as [[] [] [] [] [] [] [] []]; try reflexivity;
    vm_compute in Hb; discriminate.
Qed.

Lemma digit_not_sign c s :
  isDecimalDigit c = true ->
  JS.takeSign (String c s) = (false, String c s)
  /\ String.eqb (String c s) "Infinity" = false.
Proof.
  intros Hc.
  destruct c as [[] [] [] [] [] [] [] []]; try (split; reflexivity);
    vm_compute in Hc; discriminate.
Qed.

Lemma strDecimalLiteral_digits c s m :
  string_forallb isDecimalDigit (String c s) = true ->
  JS.digitsValue 10 0 (String c s) = Some m ->
  JS.strDecimalLiteral (String c s) = JS.Num (inject_Z (Z.of_N m))
  /\ JS.strDecimalLiteral (String "-" (String c s)) = JS.Num (- inject_Z (Z.of_N m)).
Proof.
  intros Hall Hm.
  assert (isDecimalDigit c = true) as Hc.
  { simpl in Hall. apply andb_prop in Hall as [? _]. assumption. }
  destruct (digit_not_sign c s Hc) as [Hsign Hinf].
  assert (JS.unsignedDecimal (String c s) = Some (inject_Z (Z.of_N m))) as Hu.
  { unfold JS.unsignedDecimal. rewrite (spanDigits_all _ Hall).
    rewrite string_app_empty_r, Hm. reflexivity. }
  unfold JS.strDecimalLiteral. split.
  - rewrite Hsign, Hinf, Hu. reflexivity.
  - change (JS.takeSign (String "-" (String c s))) with (true, String c s).
    cbv beta iota. rewrite Hinf, Hu. reflexivity.
Qed.

Lemma StringToNumber_digits c s m :
  string_forallb isDecimalDigit (String c s) = true ->
  JS.digitsValue 10 0 (String c s) = Some m ->
  JS.StringToNumber (String c s) = JS.Num (inject_Z (Z.of_N m))
  /\ JS.StringToNumber (String "-" (String c s)) = JS.Num (- inject_Z (Z.of_N m)).
Proof.
  intros Hall Hm.
  destruct (strDecimalLiteral_digits c s m Hall Hm) as [Hpos Hneg].
  pose proof (digits_no_whitespace _ Hall) as Hws.
  unfold JS.StringToNumber. split.
  - rewrite (trim_id _ Hws), (nonDecimal_digits _ Hall). exact Hpos.
  - rewrite trim_id by exact Hws.
    change (JS.nonDecimalIntegerLiteral (String "-" (String c s))) with (@None JS.number).
    exact Hneg.
Qed.

Lemma to_uint_string (p : positive) :
  exists c s, NilEmpty.string_of_uint (Pos.to_uint p) = String c s.
Proof.
  pose proof (DecimalPos.Unsigned.to_uint_nonnil p) as Hnil.
  destruct (Pos.to_uint p); try congruence; simpl; eauto.
Qed.

Lemma StringToNumber_NumberToString (z : Z) :
  JS.StringToNumber (JS.NumberToString z) = JS.Num (inject_Z z).
Proof.
  unfold JS.NumberToString. destruct z as [|p|p]; simpl; [reflexivity| |];
    destruct (to_uint_string p) as (c & s & E);
    pose proof (uint_all_digits (Pos.to_uint p)) as Hall;
    pose proof (digitsValue_uint (Pos.to_uint p)) as Hm;
    change (N.of_uint (Pos.to_uint p)) with (Pos.of_uint (Pos.to_uint p)) in Hm;
    rewrite DecimalPos.Unsigned.of_to in Hm;
    rewrite E in *;
    destruct (StringToNumber_digits c s _ Hall Hm) as [Hpos Hneg];
    [exact Hpos | exact Hneg].
Qed.

Lemma NumberToString_inj (x y : Z) :
  JS.NumberToString x = JS.NumberToString y -> x = y.
Proof.
  intros H. pose proof (StringToNumber_NumberToString x) as Hx.
  rewrite H, StringToNumber_NumberToString in Hx.
  injection Hx. lia.
Qed.

(** *** The sort *)

Lemma Qcompare_sub_0 (a b : Q) : (a - b ?= 0)%Q = (a ?= b)%Q.
Proof.
  unfold Qcompare, Qminus, Qplus, Qopp. simpl.
  rewrite Z.mul_1_r, (Z.compare_sub (Qnum a * _)).
  f_equal. lia.
Qed.

Section SortFacts.
Context {A : Type} (comparefn : A -> A -> JS.number) (key : A -> Q).

Lemma descending_on_tail x l : descending_on comparefn key (x :: l) -> descending_on comparefn key l.
Proof. intros H a b Ha Hb. apply H; constructor; assumption. Qed.

Lemma insert_Permutation x l : JS.insert comparefn x l ≡ₚ x :: l.
Proof.
  induction l as [|y l IH]; simpl; [reflexivity|].
  destruct (JS.SortCompare comparefn x y); try reflexivity.
  rewrite IH. apply perm_swap.
Qed.

Lemma sort_Permutation l : JS.sort comparefn l ≡ₚ l.
Proof.
  induction l as [|x l IH]; simpl; [reflexivity|].
  rewrite insert_Permutation, IH. reflexivity.
Qed.

Lemma insert_sorted x l :
  descending_on comparefn key (x :: l) ->
  StronglySorted (key_ge key) l -> StronglySorted (key_ge key) (JS.insert comparefn x l).
Proof.
  intros Hdesc Hsorted. induction Hsorted as [|y l Hsorted IH Hall]; simpl.
  - repeat constructor.
  - assert (JS.SortCompare comparefn x y = (key y ?= key x)%Q) as Hxy.
    { apply Hdesc; [left | right; left]. }
    rewrite Hxy.
    assert (descending_on comparefn key (x :: l)) as Hdesc'.
    { intros a b Ha Hb. apply Hdesc.
      - apply elem_of_cons in Ha as [->|Ha]; [left | right; right; exact Ha].
      - apply elem_of_cons in Hb as [->|Hb]; [left | right; right; exact Hb]. }
    destruct (key y ?= key x)%Q eqn:E.
    + constructor; [constructor; assumption|]. constructor.
      * unfold key_ge. apply Qle_alt. rewrite E. discriminate.
      * eapply Forall_impl; [exact Hall|]. intros z Hz. unfold key_ge in *.
        apply Qle_trans with (key y); [exact Hz|].
        apply Qle_alt. rewrite E. discriminate.
    + constructor; [constructor; assumption|]. constructor.
      * unfold key_ge. apply Qle_alt. rewrite E. discriminate.
      * eapply Forall_impl; [exact Hall|]. intros z Hz. unfold key_ge in *.
        apply Qle_trans with (key y); [exact Hz|].
        apply Qle_alt. rewrite E. discriminate.
    + constructor; [apply IH, Hdesc'|].
      rewrite insert_Permutation. constructor; [|exact Hall].
      unfold key_ge. apply Qlt_le_weak, Qgt_alt, E.
Qed.

Lemma sort_descending l : descending_on comparefn key l -> descending_on comparefn key (JS.sort comparefn l).
Proof.
  intros H a b Ha Hb. apply H; rewrite <- (sort_Permutation l); assumption.
Qed.

Lemma sort_sorted l :
  descending_on comparefn key l -> StronglySorted (key_ge key) (JS.sort comparefn l).
Proof.
  induction l as [|x l IH]; simpl; intros Hdesc; [constructor|].
  apply insert_sorted.
  - intros a b Ha Hb. apply Hdesc.
    + apply elem_of_cons in Ha as [->|Ha]; [left|right].
      rewrite <- (sort_Permutation l). exact Ha.
    + apply elem_of_cons in Hb as [->|Hb]; [left|right].
      rewrite <- (sort_Permutation l). exact Hb.
  - apply IH. eapply descending_on_tail, Hdesc.
Qed.

(** Insertion only passes elements of strictly greater key, so the
    elements of any one key keep their order. *)
Lemma insert_filter q x l :
  descending_on comparefn key (x :: l) ->
  List.filter (key_is key q) (JS.insert comparefn x l)
  = List.filter (key_is key q) (x :: l).
Proof.
  induction l as [|y l IH]; intros Hdesc; [reflexivity|].
  cbn [JS.insert].
  assert (JS.SortCompare comparefn x y = (key y ?= key x)%Q) as Hxy.
  { apply Hdesc; [left | right; left]. }
  rewrite Hxy. destruct (key y ?= key x)%Q eqn:E; try reflexivity.
  assert (descending_on comparefn key (x :: l)) as Hdesc'.
  { intros a b Ha Hb. apply Hdesc.
    - apply elem_of_cons in Ha as [->|Ha]; [left | right; right; exact Ha].
    - apply elem_of_cons in Hb as [->|Hb]; [left | right; right; exact Hb]. }
  cbn [List.filter] in *. rewrite (IH Hdesc').
  destruct (key_is key q x) eqn:Ex; [|reflexivity].
  assert (key_is key q y = false) as ->; [|reflexivity].
  unfold key_is in *. apply Qeq_bool_iff in Ex.
  destruct (Qeq_bool (key y) q) eqn:Ey; [|reflexivity].
  apply Qeq_bool_iff in Ey. apply Qgt_alt in E.
  rewrite Ex, Ey in E. exfalso. eapply Qlt_irrefl, E.
Qed.

Lemma sort_stable q l :
  descending_on comparefn key l ->
  List.filter (key_is key q) (JS.sort comparefn l) = List.filter (key_is key q) l.
Proof.
  induction l as [|x l IH]; intros Hdesc; [reflexivity|].
  cbn [JS.sort]. rewrite insert_filter.
  - cbn [List.filter]. rewrite (IH (descending_on_tail _ _ Hdesc)). reflexivity.
  - intros a b Ha Hb. apply Hdesc.
    + apply elem_of_cons in Ha as [->|Ha]; [left|right].
      rewrite <- (sort_Permutation l). exact Ha.
    + apply elem_of_cons in Hb as [->|Hb]; [left|right].
      rewrite <- (sort_Permutation l). exact Hb.
Qed.
End SortFacts.

(** * The catalog *)

Lemma NumberToString_chars (t : Z) :
  string_forallb (fun c => isDecimalDigit c || Ascii.eqb c "-") (JS.NumberToString t) = true.
Proof.
  assert (forall d, string_forallb (fun c => isDecimalDigit c || Ascii.eqb c "-")
                      (NilEmpty.string_of_uint d) = true) as Hd.
  { intros d. eapply string_forallb_impl; [|apply uint_all_digits].
    intros c ->. reflexivity. }
  unfold JS.NumberToString. destruct t; simpl; try apply Hd. reflexivity.
Qed.

Lemma NumberToString_no (sep : ascii) (t : Z) :
  isDecimalDigit sep = false -> sep <> "-"%char ->
  string_forallb (isNot sep) (JS.NumberToString t) = true.
Proof.
  intros Hsep Hminus. eapply string_forallb_impl; [|apply NumberToString_chars].
  intros c Hc. unfold isNot. apply negb_true_iff, Ascii.eqb_neq. intros ->.
  rewrite Hsep in Hc. simpl in Hc. apply Ascii.eqb_eq in Hc. contradiction.
Qed.

Lemma NumberToString_nonempty (t : Z) :
  exists c s, JS.NumberToString t = String c s.
Proof.
  unfold JS.NumberToString. destruct t as [|p|p]; simpl; eauto.
  apply to_uint_string.
Qed.

Lemma getFileExtension_shape (P : Platform) :
  exists rest, getFileExtension P = String "." rest
               /\ string_forallb (isNot "_") (getFileExtension P) = true.
Proof.
  unfold getFileExtension. destruct (OS P); eexists; split; reflexivity.
Qed.

Lemma timestampSegment_newFilename (P : Platform) (t : Z) :
  timestampSegment (newFilename P t) = Some (JS.NumberToString t).
Proof.
  destruct (getFileExtension_shape P) as (rest & Hext & Hno).
  unfold timestampSegment, newFilename.
  change (JS.split "_" ("rec_" +:+ JS.NumberToString t +:+ getFileExtension P))
    with ("rec" :: JS.split "_" (JS.NumberToString t +:+ getFileExtension P)).
  rewrite split_no_sep.
  2:{ rewrite string_forallb_app, Hno, NumberToString_no; [reflexivity|reflexivity|discriminate]. }
  simpl. rewrite Hext, split_app_sep.
  2:{ apply NumberToString_no; [reflexivity|discriminate]. }
  reflexivity.
Qed.

Lemma toItem_newFilename (P : Platform) (t : Z) (w : World) :
  toItem P (newFilename P t) w = (Ok (recordingOf P t), w).
Proof.
  unfold toItem, dateOf. rewrite timestampSegment_newFilename.
  destruct (NumberToString_nonempty t) as (c & s & E).
  unfold recordingOf. rewrite E. reflexivity.
Qed.

Lemma mapM_toItem_commits (P : Platform) (ts : list Z) (w : World) :
  mapM (toItem P) (newFilename P <$> ts) w = (Ok (recordingOf P <$> ts), w).
Proof.
  induction ts as [|t ts IH]; [reflexivity|].
  cbn [fmap list_fmap mapM]. unfold mbind, M_bind at 1.
  rewrite toItem_newFilename. unfold mbind, M_bind at 1.
  change (list_fmap Z string (newFilename P) ts) with (newFilename P <$> ts).
  rewrite IH. reflexivity.
Qed.

Lemma mapped_ok_mono P k1 k2 k1' k2' it :
  (k2 <= k1)%nat -> (k1' <= k2')%nat -> mapped_ok P k1 k1' it -> mapped_ok P k2 k2' it.
Proof.
  intros H1 H2 [Huri Hdate]. split; [exact Huri|].
  destruct (timestampSegment (name it)) as [[|c s]|]; try exact Hdate;
    destruct Hdate as (i & Hi & ->); exists i; (split; [lia|reflexivity]).
Qed.

Lemma toItem_spec (P : Platform) (f : string) (w : World) :
  exists it k',
    toItem P f w = (Ok it, with_clock_reads k' w)
    /\ (clock_reads w <= k')%nat /\ name it = f
    /\ mapped_ok P (clock_reads w) k' it.
Proof.
  unfold toItem, dateOf, mapped_ok.
  destruct (timestampSegment f) as [[|c s]|] eqn:E; unfold_ops; simpl.
  - eexists _, (S (clock_reads w)). split; [reflexivity|]. simpl. rewrite E.
    repeat split; try lia. exists (clock_reads w). split; [lia|reflexivity].
  - eexists _, (clock_reads w). split; [destruct w; reflexivity|]. simpl. rewrite E.
    repeat split; lia.
  - eexists _, (S (clock_reads w)). split; [reflexivity|]. simpl. rewrite E.
    repeat split; try lia. exists (clock_reads w). split; [lia|reflexivity].
Qed.

Lemma mapM_toItem_spec (P : Platform) (files : list string) (w : World) :
  exists items k',
    mapM (toItem P) files w = (Ok items, with_clock_reads k' w)
    /\ (clock_reads w <= k')%nat /\ name <$> items = files
    /\ Forall (mapped_ok P (clock_reads w) k') items.
Proof.
  revert w. induction files as [|f files IH]; intros w.
  - exists [], (clock_reads w). split; [destruct w; reflexivity|].
    repeat split; [lia | constructor].
  - destruct (toItem_spec P f w) as (it & k1 & Hit & Hk1 & Hname & Hok).
    destruct (IH (with_clock_reads k1 w)) as (items & k2 & Hitems & Hk2 & Hnames & Hoks).
    simpl in Hk2.
    exists (it :: items), k2. cbn [mapM]. unfold mbind, M_bind at 1. rewrite Hit.
    unfold mbind, M_bind at 1. rewrite Hitems. split; [reflexivity|].
    split; [lia|]. split; [rewrite fmap_cons, Hname, Hnames; reflexivity|].
    constructor.
    + eapply mapped_ok_mono; [| |exact Hok]; lia.
    + eapply Forall_impl; [exact Hoks|]. intros x Hx. simpl in Hx.
      eapply mapped_ok_mono; [| |exact Hx]; lia.
Qed.

Lemma loadRecordings_body_ok (P : Platform) (w : World) (D : gset string) :
  dir w = Some D -> listing_answered P w ->
  exists items k',
    mapM (toItem P) (enumerate P D) (listed w)
      = (Ok items, with_clock_reads k' (listed w))
    /\ (clock_reads w <= k')%nat
    /\ name <$> items = enumerate P D
    /\ Forall (mapped_ok P (clock_reads w) k') items
    /\ loadRecordings_body P w
       = (Ok tt, exec (setRecordings (JS.sort byDate items))
                      (with_clock_reads k' (listed w))).
Proof.
  intros Hdir [Hinfo Hread].
  destruct (mapM_toItem_spec P (enumerate P D) (listed w))
    as (items & k' & Hmap & Hk & Hnames & Hok).
  exists items, k'. repeat split; try assumption.
  unfold loadRecordings_body, ensureDirExists. unfold_ops. simpl.
  rewrite Hinfo. simpl. rewrite Hdir. simpl. rewrite Hread. simpl.
  rewrite Hdir.
  change (with_trace _ (with_trace _ w)) with (listed w).
  rewrite Hmap. reflexivity.
Qed.

Lemma loadRecordings_ok (P : Platform) (w : World) (D : gset string) :
  dir w = Some D -> listing_answered P w ->
  exists items k',
    mapM (toItem P) (enumerate P D) (listed w)
      = (Ok items, with_clock_reads k' (listed w))
    /\ (clock_reads w <= k')%nat
    /\ name <$> items = enumerate P D
    /\ Forall (mapped_ok P (clock_reads w) k') items
    /\ loadRecordings P w
       = (Ok tt, exec (setRecordings (JS.sort byDate items))
                      (with_clock_reads k' (listed w))).
Proof.
  intros Hdir Hans.
  destruct (loadRecordings_body_ok P w D Hdir Hans)
    as (items & k' & Hmap & Hk & Hnames & Hok & Hbody).
  exists items, k'. repeat split; try assumption.
  unfold loadRecordings, tryCatch. rewrite Hbody. reflexivity.
Qed.

Lemma finiteDate_descending (l : list Item) :
  Forall finiteDate l -> descending_on byDate keyOf l.
Proof.
  intros Hall a b Ha Hb. rewrite Forall_forall in Hall.
  destruct (Hall a Ha) as [qa Ea], (Hall b Hb) as [qb Eb].
  unfold JS.SortCompare, byDate, keyOf. rewrite Ea, Eb. simpl.
  apply Qcompare_sub_0.
Qed.

Lemma keyOf_recordingOf (P : Platform) (t : Z) :
  ToNumber (date (recordingOf P t)) = JS.Num (inject_Z t).
Proof. simpl. apply StringToNumber_NumberToString. Qed.

Lemma newFilename_inj (P : Platform) (x y : Z) :
  newFilename P x = newFilename P y -> x = y.
Proof.
  intros H. pose proof (timestampSegment_newFilename P x) as Hx.
  rewrite H, timestampSegment_newFilename in Hx.
  injection Hx as Hx. symmetry. apply NumberToString_inj, Hx.
Qed.

Lemma fmap_Permutation_inv {A B} (f : A -> B) (l : list B) (k : list A) :
  l ≡ₚ f <$> k -> exists k', l = f <$> k' /\ k' ≡ₚ k.
Proof.
  intros H. revert l H. induction k as [|x k IH]; intros l H.
  - apply Permutation_nil_r in H as ->. exists []. split; reflexivity.
  - assert (f x ∈ l) as Hin by (rewrite H; left).
    apply list_elem_of_split in Hin as (l1 & l2 & ->).
    rewrite fmap_cons, <- Permutation_middle in H.
    apply Permutation_cons_inv in H.
    destruct (IH _ H) as (k' & Ek & Hk).
    symmetry in Ek. apply fmap_app_inv in Ek as (k1 & k2 & -> & -> & ->).
    exists (k1 ++ x :: k2). split.
    + rewrite fmap_app, fmap_cons. reflexivity.
    + rewrite <- Permutation_middle, Hk. reflexivity.
Qed.

Lemma sorted_timestamps (P : Platform) (ts : list Z) :
  NoDup ts ->
  StronglySorted (key_ge keyOf) (recordingOf P <$> ts) ->
  StronglySorted Z.gt ts.
Proof.
  induction ts as [|t ts IH]; intros Hnd Hs; [constructor|].
  apply NoDup_cons in Hnd as [Hnotin Hnd].
  rewrite fmap_cons in Hs. apply StronglySorted_inv in Hs as [Hs Hall].
  constructor; [apply IH; assumption|].
  rewrite Forall_forall. intros u Hu.
  rewrite Forall_fmap, Forall_forall in Hall.
  specialize (Hall u Hu). unfold key_ge, keyOf, compose in Hall.
  rewrite !keyOf_recordingOf in Hall. rewrite <- Zle_Qle in Hall.
  assert (u <> t) by (intros ->; contradiction). lia.
Qed.

Lemma timestamped_finite (it : Item) : timestamped it -> finiteDate it.
Proof. intros (t & _ & E). exists (inject_Z t). exact E. Qed.

(** C1: after commits at pairwise distinct timestamps the listing is
    strictly descending by timestamp, whatever the order in which the
    directory reports its entries; commits at 100, 200 and 150 are listed
    as 200, 150, 100; and the sort is stable: in every listing whose
    dates are all timestamps, the entries of any one timestamp keep the
    order in which the directory reported them. *)
Theorem list_newest_first (P : Platform) (w : World) (D : gset string) :
  faithful P -> dir w = Some D -> listing_answered P w ->
  let listing := recordings (app (exec (loadRecordings P) w)) in
  (forall ts : list Z,
      NoDup ts -> Forall safeInteger ts ->
      D = list_to_set (newFilename P <$> ts) ->
      exists ts', listing = recordingOf P <$> ts'
                  /\ ts' ≡ₚ ts /\ StronglySorted Z.gt ts')
  /\ (D = list_to_set (newFilename P <$> [100; 200; 150]%Z) ->
      name <$> listing = newFilename P <$> [200; 150; 100]%Z)
  /\ (exists mapped,
         name <$> mapped = enumerate P D
         /\ listing = JS.sort byDate mapped
         /\ (Forall timestamped mapped ->
             forall t : Z,
               List.filter (key_is keyOf (inject_Z t)) listing
               = List.filter (key_is keyOf (inject_Z t)) mapped)).
Proof.
  intros Hfaith Hdir Hans listing.
  destruct (loadRecordings_ok P w D Hdir Hans)
    as (items & k' & Hmap & Hk & Hnames & Hok & Hrun).
  assert (listing = JS.sort byDate items) as Hlisting.
  { unfold listing, exec at 1. rewrite Hrun. reflexivity. }
  assert (forall ts : list Z,
      NoDup ts -> D = list_to_set (newFilename P <$> ts) ->
      exists ts', listing = recordingOf P <$> ts'
                  /\ ts' ≡ₚ ts /\ StronglySorted Z.gt ts') as Hsorted.
  { intros ts Hnd ->.
    destruct (Hfaith (list_to_set (newFilename P <$> ts))) as [Hnd' Hmem].
    assert (enumerate P (list_to_set (newFilename P <$> ts)) ≡ₚ newFilename P <$> ts)
      as Hperm.
    { apply NoDup_Permutation; [exact Hnd'| |].
      - apply NoDup_fmap_2_strong; [|exact Hnd].
        intros x y _ _. apply newFilename_inj.
      - intros f. rewrite Hmem, elem_of_list_to_set. reflexivity. }
    apply fmap_Permutation_inv in Hperm as (ts1 & Efiles & Hts1).
    rewrite Efiles, mapM_toItem_commits in Hmap. injection Hmap as <- _.
    pose proof (sort_Permutation byDate (recordingOf P <$> ts1)) as Hp.
    rewrite <- Hlisting in Hp.
    apply fmap_Permutation_inv in Hp as (ts' & Els & Hts').
    exists ts'. split; [exact Els|]. split; [rewrite Hts', Hts1; reflexivity|].
    apply (sorted_timestamps P).
    - rewrite Hts', Hts1. exact Hnd.
    - rewrite <- Els, Hlisting. apply sort_sorted, finiteDate_descending.
      rewrite Forall_fmap, Forall_forall. intros t _.
      eexists. apply keyOf_recordingOf. }
  split; [intros ts Hnd _; apply Hsorted, Hnd|]. split.
  - intros HD. destruct (Hsorted [100; 200; 150]%Z) as (ts' & -> & Hperm & Hs).
    + repeat constructor; rewrite ?elem_of_cons, ?elem_of_nil; lia.
    + exact HD.
    + rewrite <- list_fmap_compose.
      assert (ts' = [200; 150; 100]%Z) as ->; [|reflexivity].
      apply (StronglySorted_unique_strong Z.gt); try assumption.
      * intros x y _ _ Hxy Hyx. lia.
      * repeat constructor; lia.
      * rewrite Hperm. etransitivity; [apply perm_swap|].
        apply perm_skip, perm_swap.
  - exists items. split; [exact Hnames|]. split; [exact Hlisting|].
    intros Hfin t. rewrite Hlisting.
    apply sort_stable, finiteDate_descending.
    eapply Forall_impl; [exact Hfin|]. apply timestamped_finite.
Qed.

(** A listing either fails, and leaves the React state as it was, or
    succeeds, and replaces the view by the sorted image of the directory. *)
Lemma loadRecordings_cases (P : Platform) (w : World) :
  let w' := exec (loadRecordings P) w in
  sessions_kept w w'
  /\ ((exists e w1, loadRecordings_body P w = (Throw e, w1)) /\ app w' = app w
      \/ (exists w1 D items,
             loadRecordings_body P w = (Ok tt, w1)
             /\ dir w' = Some D
             /\ (dir w = Some D \/ dir w = None /\ D = ∅)
             /\ name <$> items = enumerate P D
             /\ Forall (mapped_ok P (clock_reads w) (clock_reads w')) items
             /\ recordings (app w') = JS.sort byDate items)).
Proof.
  unfold loadRecordings, loadRecordings_body, ensureDirExists, sessions_kept.
  unfold_ops. simpl.
  destruct (rejects P (trace w) getInfoAsync) eqn:Hinfo; simpl.
  { split; [repeat split|]. left. split; [eauto|reflexivity]. }
  destruct (dir w) as [D|] eqn:Hdir; simpl.
  - destruct (rejects P (Called getInfoAsync :: trace w) readDirectoryAsync) eqn:Hread;
      simpl.
    { split; [repeat split|]. left. split; [eauto|reflexivity]. }
    rewrite Hdir.
    match goal with
    | |- context [mapM (toItem P) ?l ?w0] =>
        destruct (mapM_toItem_spec P l w0) as (items & k' & -> & Hk & Hnames & Hok)
    end.
    simpl. split; [repeat split|]. right.
    eexists _, D, items. split; [reflexivity|]. simpl. rewrite Hdir.
    repeat split; try assumption. left. reflexivity.
  - destruct (rejects P (Called getInfoAsync :: trace w) makeDirectoryAsync) eqn:Hmk;
      simpl.
    { split; [repeat split|]. left. split; [eauto|reflexivity]. }
    rewrite Hdir. simpl.
    match goal with
    | |- context [rejects P ?h readDirectoryAsync] =>
        destruct (rejects P h readDirectoryAsync) eqn:Hread
    end; simpl.
    { split; [repeat split|]. left. split; [eauto|reflexivity]. }
    match goal with
    | |- context [mapM (toItem P) ?l ?w0] =>
        destruct (mapM_toItem_spec P l w0) as (items & k' & -> & Hk & Hnames & Hok)
    end.
    simpl. split; [repeat split|]. right.
    eexists _, ∅, items. split; [reflexivity|]. simpl.
    repeat split; try assumption. right. split; reflexivity.
Qed.

(** C2, as the code has it: every file of the directory is listed, once,
    under its own name and location; a file whose name carries no
    timestamp segment, or an empty one, is dated by the clock, read while
    the listing is built. *)
Theorem list_keeps_every_file (P : Platform) (w : World) (D : gset string) :
  faithful P -> dir w = Some D -> listing_answered P w ->
  let w' := exec (loadRecordings P) w in
  name <$> recordings (app w') ≡ₚ elements D
  /\ (forall f, f ∈ D ->
        exists it, it ∈ recordings (app w') /\ name it = f
                   /\ uri it = RECORDINGS_DIR P +:+ f)
  /\ (forall it, it ∈ recordings (app w') ->
        timestampSegment (name it) = None \/ timestampSegment (name it) = Some "" ->
        exists i, (clock_reads w <= i < clock_reads w')%nat
                  /\ date it = DateNum (now P i)).
Proof.
  intros Hfaith Hdir Hans w'.
  destruct (loadRecordings_ok P w D Hdir Hans)
    as (items & k' & Hmap & Hk & Hnames & Hok & Hrun).
  assert (w' = exec (setRecordings (JS.sort byDate items))
                    (with_clock_reads k' (listed w))) as Hw'.
  { unfold w', exec at 1. rewrite Hrun. reflexivity. }
  assert (recordings (app w') = JS.sort byDate items) as Hrec
    by (rewrite Hw'; reflexivity).
  assert (clock_reads w' = k') as Hclock by (rewrite Hw'; reflexivity).
  pose proof (sort_Permutation byDate items) as Hperm.
  destruct (Hfaith D) as [Hnd Hmem].
  assert (forall it, it ∈ recordings (app w') -> mapped_ok P (clock_reads w) k' it)
    as Hall.
  { intros it Hit. rewrite Hrec, Hperm in Hit.
    rewrite Forall_forall in Hok. apply Hok, Hit. }
  split; [|split].
  - rewrite Hrec, Hperm, Hnames.
    apply NoDup_Permutation; [exact Hnd | apply NoDup_elements |].
    intros f. rewrite Hmem, elem_of_elements. reflexivity.
  - intros f Hf. apply Hmem in Hf. rewrite <- Hnames in Hf.
    apply list_elem_of_fmap in Hf as (it & -> & Hit).
    exists it. rewrite Hrec, Hperm. split; [exact Hit|]. split; [reflexivity|].
    rewrite Forall_forall in Hok. apply (Hok it Hit).
  - intros it Hit Hseg. rewrite Hclock.
    destruct (Hall it Hit) as [_ Hdate].
    destruct Hseg as [E|E]; rewrite E in Hdate; exact Hdate.
Qed.

(** A segment that is present and not empty is kept as the date, as it
    stands. *)
Lemma present_segment_kept (P : Platform) (w : World) (D : gset string) :
  dir w = Some D -> listing_answered P w ->
  forall it c s,
    it ∈ recordings (app (exec (loadRecordings P) w)) ->
    timestampSegment (name it) = Some (String c s) ->
    date it = DateStr (String c s).
Proof.
  intros Hdir Hans it c s Hit Hseg.
  destruct (loadRecordings_ok P w D Hdir Hans)
    as (items & k' & Hmap & Hk & Hnames & Hok & Hrun).
  unfold exec at 1 in Hit. rewrite Hrun in Hit. simpl in Hit.
  rewrite (sort_Permutation byDate items) in Hit.
  rewrite Forall_forall in Hok. destruct (Hok it Hit) as [_ Hdate].
  rewrite Hseg in Hdate. exact Hdate.
Qed.

(** C9: when a listing fails, at whichever call, the React state is what
    it was before, and with it the visible sequence of recordings; when it
    succeeds the sequence is rebuilt from the directory alone. *)
Theorem list_failure_keeps_view (P : Platform) (w : World) :
  (forall e w1,
      loadRecordings_body P w = (Throw e, w1) ->
      app (exec (loadRecordings P) w) = app w
      /\ recordings (app (exec (loadRecordings P) w)) = recordings (app w))
  /\ (forall w1,
        loadRecordings_body P w = (Ok tt, w1) ->
        exists D items,
          dir (exec (loadRecordings P) w) = Some D
          /\ name <$> items = enumerate P D
          /\ recordings (app (exec (loadRecordings P) w)) = JS.sort byDate items).
Proof.
  destruct (loadRecordings_cases P w) as [_ [[(e & w1 & Hthrow) Happ]|Hok]].
  - split.
    + intros _ _ _. rewrite Happ. split; reflexivity.
    + intros w2 H. rewrite H in Hthrow. discriminate.
  - destruct Hok as (w1 & D & items & Hbody & Hdir & _ & Hnames & _ & Hrec).
    split.
    + intros e w2 H. rewrite H in Hbody. discriminate.
    + intros w2 _. exists D, items. repeat split; assumption.
Qed.

(** * The capture session *)

(** C10: with no capture in progress [stopRecording] returns at once and
    leaves the whole world as it was: no state cell changes, no platform
    call is made, no file is moved, nothing is committed. *)
Theorem stop_without_capture (P : Platform) (w : World) :
  recording (app w) = None ->
  stopRecording P w = (Ok tt, w)
  /\ exec (stopRecording P) w = w.
Proof.
  intros H. unfold exec, stopRecording, rendered, mbind, M_bind.
  rewrite H. split; reflexivity.
Qed.

Lemma stopRecording_recorders (P : Platform) (w : World) :
  recorders (exec (stopRecording P) w) ⊆ recorders w.
Proof.
  assert (recorders (exec (stopRecording P) w) = recorders w
          \/ exists r, recorders (exec (stopRecording P) w) = recorders w ∖ {[r]})
    as [->| [r ->]]; [|reflexivity|apply subseteq_difference_l; reflexivity].
  unfold stopRecording. unfold_ops.
  destruct (recording (app w)) as [r|]; simpl; [|left; reflexivity].
  match goal with
  | |- context [rejects P ?h (stopAndUnloadAsync r)] =>
      destruct (rejects P h (stopAndUnloadAsync r))
  end; simpl; [left; reflexivity|].
  match goal with
  | |- context [rejects P ?h (moveAsync ?a ?b)] =>
      destruct (rejects P h (moveAsync a b))
  end; simpl; [right; exists r; reflexivity|].
  destruct (stripPrefix _ _); simpl;
    [destruct (dir w); simpl; [|right; exists r; reflexivity]|];
    match goal with
    | |- context [loadRecordings P ?w0] =>
        destruct (loadRecordings_cases P w0) as [Hkept _];
        destruct Hkept as (_ & _ & _ & _ & _ & _ & Hrec & _);
        unfold exec in Hrec; destruct (loadRecordings P w0) as [[] ?]
    end; simpl in *; rewrite Hrec; right; exists r; reflexivity.
Qed.

Lemma stripPrefix_app (p s : string) : stripPrefix p (p +:+ s) = Some s.
Proof.
  induction p as [|c p IH]; [reflexivity|].
  change (String c p +:+ s) with (String c (p +:+ s)). simpl.
  rewrite Ascii.eqb_refl. exact IH.
Qed.

Lemma string_app_inj (p a b : string) : p +:+ a = p +:+ b -> a = b.
Proof.
  intros H. pose proof (stripPrefix_app p a) as Ha.
  rewrite H, stripPrefix_app in Ha. congruence.
Qed.

(** Stopping a capture commits it: the directory gains the file named
    after the clock reading taken by [stopRecording]. *)
Lemma stopRecording_commits (P : Platform) (w : World) (r : nat) (D : gset string) :
  reliable P -> recording (app w) = Some r -> dir w = Some D ->
  let w' := exec (stopRecording P) w in
  dir w' = Some ({[newFilename P (now P (clock_reads w))]} ∪ D)
  /\ recording (app w') = None
  /\ isRecording (app w') = false
  /\ recorders w' = recorders w ∖ {[r]}.
Proof.
  intros Hrel Hr Hdir w'. subst w'.
  unfold stopRecording. unfold_ops. rewrite Hr. simpl.
  rewrite !Hrel. simpl. rewrite stripPrefix_app, Hdir. simpl.
  match goal with
  | |- context [loadRecordings P ?w0] =>
      destruct (loadRecordings_ok P w0 ({[newFilename P (now P (clock_reads w))]} ∪ D))
        as (items & k' & _ & _ & _ & _ & ->);
      [reflexivity | split; apply Hrel |]
  end.
  repeat split; reflexivity.
Qed.

(** C3, as the code has it: [startRecording] looks at no capture state;
    what keeps a second capture from starting is the record button, which
    calls [stopRecording] whenever [isRecording] holds, so that pressing it
    opens no capture resource; and when the platform refuses to open the
    device, [startRecording] leaves the capture in progress as it was and
    raises its alert. *)
Theorem start_guarded_by_button (P : Platform) (w : World) :
  (isRecording (app w) = true ->
   onPressRecord P w = stopRecording P w
   /\ recorders (exec (onPressRecord P) w) ⊆ recorders w)
  /\ (forall r,
        recording (app w) = Some r ->
        (forall history, rejects P history Recording_createAsync = true) ->
        let w' := exec (startRecording P) w in
        recording (app w') = Some r
        /\ isRecording (app w') = isRecording (app w)
        /\ recorders w' = recorders w
        /\ Alert "Error" "Failed to start recording" ∈ trace w').
Proof.
  split.
  - intros H.
    assert (onPressRecord P w = stopRecording P w) as E.
    { unfold onPressRecord, rendered, mbind, M_bind. rewrite H. reflexivity. }
    split; [exact E|]. unfold exec. rewrite E. apply stopRecording_recorders.
  - intros r Hr Hrej w'. subst w'.
    unfold startRecording, startRecording_body. unfold_ops. simpl.
    destruct (permissionResponse (app w)) as [[]|]; simpl;
      repeat match goal with
        | |- context [rejects P ?h Recording_createAsync] =>
            rewrite (Hrej h)
        | |- context [rejects P ?h ?c] =>
            destruct (rejects P h c); simpl
        end;
      simpl; rewrite ?Hr; repeat split; try reflexivity;
      rewrite ?elem_of_cons; auto.
Qed.

(** C4, as the code has it: when the permission is not granted
    [startRecording] asks for it and then, whatever the answer, goes on to
    set the audio mode and to ask the platform for the recording device.
    If the permission state is not known yet, or a platform call rejects,
    no capture handle is stored, [isRecording] keeps its value and the
    alert is raised; otherwise the capture starts. *)
Theorem start_without_permission (P : Platform) (w : World) :
  permissionResponse (app w) <> Some granted ->
  let w' := exec (startRecording P) w in
  let asked := Called requestPermission :: ConsoleLog "Requesting permission.." :: trace w in
  match permissionResponse (app w) with
  | None =>
      app w' = app w /\ recorders w' = recorders w
      /\ trace w' = Alert "Error" "Failed to start recording"
                    :: ConsoleError "Failed to start recording" :: trace w
  | Some _ =>
      if rejects P (ConsoleLog "Requesting permission.." :: trace w) requestPermission
         || rejects P asked setAudioModeAsync
         || rejects P (Called setAudioModeAsync :: asked) Recording_createAsync
      then recording (app w') = recording (app w)
           /\ isRecording (app w') = isRecording (app w)
           /\ recorders w' = recorders w
           /\ head (trace w') = Some (Alert "Error" "Failed to start recording")
      else recording (app w') = Some (next_handle w)
           /\ isRecording (app w') = true
           /\ recorders w' = {[next_handle w]} ∪ recorders w
           /\ trace w' = ConsoleLog "Recording started"
                         :: Called Recording_createAsync
                         :: Called setAudioModeAsync :: asked
  end.
Proof.
  intros Hperm w' asked. subst w' asked.
  unfold startRecording, startRecording_body. unfold_ops. simpl.
  destruct (permissionResponse (app w)) as [[]|]; simpl;
    try congruence;
    try (repeat split; reflexivity);
    destruct (rejects P (ConsoleLog "Requesting permission.." :: trace w)
                      requestPermission); simpl;
    try (repeat split; reflexivity);
    destruct (rejects P (Called requestPermission
                         :: ConsoleLog "Requesting permission.." :: trace w)
                      setAudioModeAsync); simpl;
    try (repeat split; reflexivity);
    destruct (rejects P (Called setAudioModeAsync :: Called requestPermission
                         :: ConsoleLog "Requesting permission.." :: trace w)
                      Recording_createAsync); simpl;
    repeat split; reflexivity.
Qed.

(** * The playback session *)

Lemma toggle_playing (P : Platform) (id : string) (w : World) (h : nat) :
  Loaded w h id true ->
  rejects P (trace w) (pauseAsync h) = false ->
  let w' := exec (playSound P id) w in
  Loaded w' h id false
  /\ players w' = <[h := mkPlayer id false]> (players w)
  /\ trace w' = Called (pauseAsync h) :: trace w.
Proof.
  intros (Hsound & Huri & Hplaying & Hloaded) Hpause w'. subst w'.
  unfold playSound, Loaded. unfold_ops. simpl.
  rewrite Hsound, Huri, Hplaying, bool_decide_eq_true_2 by reflexivity. simpl.
  rewrite Hpause. simpl. rewrite Hloaded. simpl.
  rewrite Hsound, Huri, lookup_insert_eq. repeat split; reflexivity.
Qed.

Lemma toggle_from_empty (P : Platform) (id : string) (w : World) :
  Empty w -> reliable P ->
  let w' := exec (playSound P id) w in
  Loaded w' (next_handle w) id true.
Proof.
  intros [Huri Hplaying] Hrel w'. subst w'.
  unfold playSound, Loaded. unfold_ops. simpl.
  rewrite Huri. rewrite bool_decide_eq_false_2 by discriminate. simpl.
  destruct (sound (app w)) as [stale|]; simpl; rewrite !Hrel; simpl;
    rewrite lookup_insert_eq; repeat split; reflexivity.
Qed.

(** C5: toggling the identity that is playing pauses its resource, which
    stays loaded, and clears [isPlaying]; so two toggles of one identity in
    a row, starting from [Empty], end in [Loaded(id, not playing)]. *)
Theorem toggle_same_pauses (P : Platform) (id : string) :
  (forall w h,
      Loaded w h id true ->
      rejects P (trace w) (pauseAsync h) = false ->
      let w' := exec (playSound P id) w in
      Loaded w' h id false
      /\ players w' = <[h := mkPlayer id false]> (players w)
      /\ trace w' = Called (pauseAsync h) :: trace w)
  /\ (forall w,
        Empty w -> reliable P ->
        let w' := exec (playSound P id) (exec (playSound P id) w) in
        Loaded w' (next_handle w) id false /\ ~ Empty w').
Proof.
  split; [apply toggle_playing|].
  intros w Hempty Hrel w'.
  pose proof (toggle_from_empty P id w Hempty Hrel) as H1.
  destruct (toggle_playing P id _ _ H1 (Hrel _ _)) as [H2 _].
  split; [exact H2|].
  destruct H2 as (_ & Huri & _). intros [Hnone _].
  unfold w' in Hnone. rewrite Huri in Hnone. discriminate.
Qed.

(** C6: toggling another identity while one is playing unloads the
    resource of the first, then loads the second and plays it; afterwards
    the sound cell holds the new handle and the old resource is gone. *)
Theorem toggle_other_switches (P : Platform) (w : World) (h : nat) (id1 id2 : string) :
  id1 <> id2 ->
  Loaded w h id1 true ->
  (h < next_handle w)%nat ->
  rejects P (trace w) (unloadAsync h) = false ->
  rejects P (Called (unloadAsync h) :: trace w) (Sound_createAsync id2) = false ->
  let w' := exec (playSound P id2) w in
  Loaded w' (next_handle w) id2 true
  /\ players w' = <[next_handle w := mkPlayer id2 true]> (delete h (players w))
  /\ players w' !! h = None
  /\ sound (app w') <> Some h
  /\ trace w' = Called (Sound_createAsync id2) :: Called (unloadAsync h) :: trace w.
Proof.
  intros Hne (Hsound & Huri & Hplaying & Hloaded) Hfresh Hunload Hcreate w'. subst w'.
  unfold playSound, Loaded. unfold_ops. simpl.
  rewrite Hsound, Huri. rewrite bool_decide_eq_false_2 by congruence. simpl.
  rewrite Hunload. simpl. rewrite Hcreate. simpl.
  rewrite lookup_insert_eq.
  rewrite lookup_insert_ne by lia. rewrite lookup_delete_eq.
  repeat split; try reflexivity. intros [= E]. lia.
Qed.

(** C7: deleting the identity that is active unloads its resource (it
    does not pause it), then deletes the file; afterwards the playback
    session is [Empty], the resource is released, the file is gone from
    the directory and the rebuilt catalog has no entry for it. *)
Theorem delete_active_releases (P : Platform) (w : World) (h : nat)
    (id f : string) (D : gset string) :
  faithful P -> reliable P ->
  sound (app w) = Some h ->
  playingUri (app w) = Some id ->
  id = RECORDINGS_DIR P +:+ f ->
  dir w = Some D -> f ∈ D ->
  let w' := exec (deleteRecording P id) w in
  Empty w'
  /\ players w' = delete h (players w)
  /\ players w' !! h = None
  /\ dir w' = Some (D ∖ {[f]})
  /\ (forall it, it ∈ recordings (app w') -> uri it <> id)
  /\ trace w' = Called readDirectoryAsync :: Called getInfoAsync
                :: ConsoleLog "Deleted file" :: Called (deleteAsync id)
                :: Called (unloadAsync h) :: trace w.
Proof.
  intros Hfaith Hrel Hsound Huri -> Hdir Hf w'. subst w'.
  unfold deleteRecording, Empty. unfold_ops. simpl.
  rewrite Hsound, Huri, bool_decide_eq_true_2 by reflexivity. simpl.
  rewrite !Hrel. simpl. rewrite stripPrefix_app, Hdir.
  rewrite bool_decide_eq_true_2 by exact Hf. simpl.
  match goal with
  | |- context [loadRecordings P ?w0] =>
      destruct (loadRecordings_ok P w0 (D ∖ {[f]}))
        as (items & k' & Hmap & Hk & Hnames & Hok & ->);
      [reflexivity | split; apply Hrel |]
  end.
  simpl. rewrite lookup_delete_eq. repeat split; try reflexivity.
  intros it Hit Heq. rewrite (sort_Permutation byDate items) in Hit.
  rewrite Forall_forall in Hok. destruct (Hok it Hit) as [Hloc _].
  rewrite Hloc in Heq. apply string_app_inj in Heq.
  assert (name it ∈ enumerate P (D ∖ {[f]})) as Hin.
  { rewrite <- Hnames. apply list_elem_of_fmap. exists it. split; [reflexivity|exact Hit]. }
  apply (Hfaith (D ∖ {[f]})) in Hin. rewrite Heq in Hin.
  apply elem_of_difference in Hin as [_ Hnot]. apply Hnot, elem_of_singleton. reflexivity.
Qed.

(** C8, as the code has it: when the resource reports that it played to
    its end, the callback clears [isPlaying] and the active identity; the
    resource is not released then: the sound cell keeps the handle and the
    resource stays loaded, until the next toggle unloads it before it
    loads anything. *)
Theorem finished_clears_identity (w : World) (h : nat) (id : string) :
  Loaded w h id true -> h ∈ listeners w ->
  let w' := exec (playbackFinished h) w in
  Empty w'
  /\ sound (app w') = Some h
  /\ players w' !! h = Some (mkPlayer id false)
  /\ trace w' = trace w
  /\ (forall (P : Platform) (id' : string),
        rejects P (trace w) (unloadAsync h) = false ->
        rejects P (Called (unloadAsync h) :: trace w) (Sound_createAsync id') = false ->
        let w'' := exec (playSound P id') w' in
        players w'' = <[next_handle w := mkPlayer id' true]> (delete h (players w))
        /\ trace w'' = Called (Sound_createAsync id') :: Called (unloadAsync h) :: trace w).
Proof.
  intros (Hsound & Huri & Hplaying & Hloaded) Hlisten w'. subst w'.
  unfold playbackFinished, onPlaybackStatusUpdate, Empty. unfold_ops. simpl.
  rewrite Hloaded. simpl. rewrite bool_decide_eq_true_2 by exact Hlisten. simpl.
  rewrite lookup_insert_eq, Hsound.
  split; [split; reflexivity|]. do 3 (split; [reflexivity|]).
  intros P id' Hunload Hcreate. unfold playSound. unfold_ops. simpl.
  rewrite Hsound. simpl. rewrite Hunload. simpl. rewrite Hcreate. simpl.
  rewrite delete_insert_eq. split; reflexivity.
Qed.

(** * Concrete runs *)

Lemma willing_faithful (refuses : Call -> bool) (answer : PermissionStatus) :
  faithful (demoPlatform refuses answer).
Proof.
  intros entries. split; [apply NoDup_elements|].
  intros f. apply elem_of_elements.
Qed.

Lemma willing_reliable : reliable willing.
Proof. intros history c. reflexivity. Qed.

Lemma list_newest_first_witness :
  name <$> recordings (app (exec (loadRecordings willing) threeCommits))
  = ["rec_200.wav"; "rec_150.wav"; "rec_100.wav"].
Proof.
  assert (dir threeCommits
          = Some (list_to_set (newFilename willing <$> [100; 200; 150]%Z))) as Hdir
    by (vm_compute; reflexivity).
  destruct (list_newest_first willing threeCommits _
              (willing_faithful _ _) Hdir (conj eq_refl eq_refl))
    as (_ & Hscenario & _).
  exact (Hscenario eq_refl).
Defined.

(** The claim C2 as the specification words it fails on a file named
    [rec_abc.wav]: its segment is present and is not a number, and the
    entry is dated by that text, not by the clock, which is not read. *)
Lemma non_numeric_segment_counterexample :
  let w' := exec (loadRecordings willing) strayFile in
  timestampSegment "rec_abc.wav" = Some "abc"
  /\ JS.StringToNumber "abc" = JS.NaN
  /\ recordings (app w')
     = [ {| name := "rec_abc.wav";
            uri := "file:///doc/recordings/rec_abc.wav";
            date := DateStr "abc" |} ]
  /\ clock_reads w' = clock_reads strayFile
  /\ ~ (forall it, it ∈ recordings (app w') -> exists t, date it = DateNum t).
Proof.
  assert (recordings (app (exec (loadRecordings willing) strayFile))
     = [ {| name := "rec_abc.wav";
            uri := "file:///doc/recordings/rec_abc.wav";
            date := DateStr "abc" |} ]) as E by (vm_compute; reflexivity).
  cbv zeta. rewrite E.
  split; [reflexivity|]. split; [vm_compute; reflexivity|].
  split; [reflexivity|]. split; [vm_compute; reflexivity|].
  intros H. destruct (H _ (list_elem_of_here _ _)) as [t Ht]. discriminate Ht.
Qed.

Lemma list_keeps_every_file_witness :
  exists it i,
    it ∈ recordings (app (exec (loadRecordings willing) unnamedFile))
    /\ name it = "memo.wav"
    /\ uri it = "file:///doc/recordings/memo.wav"
    /\ date it = DateNum (demoClock i).
Proof.
  destruct (list_keeps_every_file willing unnamedFile {["memo.wav"]}
              (willing_faithful _ _) eq_refl (conj eq_refl eq_refl))
    as (_ & Hin & Hclock).
  destruct (Hin "memo.wav") as (it & Hit & Hname & Huri).
  { apply elem_of_singleton. reflexivity. }
  destruct (Hclock it Hit) as (i & _ & Hdate).
  { left. rewrite Hname. reflexivity. }
  exists it, i. repeat split; assumption.
Defined.

Lemma list_failure_keeps_view_witness :
  recordings (app (exec (loadRecordings unreadable) threeCommits))
  = recordings (app threeCommits).
Proof.
  refine (proj2 (proj1 (list_failure_keeps_view unreadable threeCommits)
                   (Rejected readDirectoryAsync)
                   (snd (loadRecordings_body unreadable threeCommits)) _)).
  vm_compute. reflexivity.
Defined.

Lemma stop_without_capture_witness :
  exec (stopRecording willing) threeCommits = threeCommits.
Proof. exact (proj2 (stop_without_capture willing threeCommits eq_refl)). Defined.

(** The claim C3 as the specification words it fails: called while a
    capture is in progress, on a platform that opens the device,
    [startRecording] opens a second capture resource and overwrites the
    handle of the first. *)
Lemma second_start_counterexample :
  let w' := exec (startRecording willing) capturing in
  recording (app capturing) = Some 0%nat
  /\ isRecording (app capturing) = true
  /\ recorders capturing = {[0%nat]}
  /\ recording (app w') = Some 1%nat
  /\ recorders w' = {[0%nat; 1%nat]}
  /\ take 2 (trace w')
     = [ConsoleLog "Recording started"; Called Recording_createAsync].
Proof. cbv zeta. repeat split; vm_compute; reflexivity. Qed.

Lemma start_guarded_by_button_witness :
  recorders (exec (onPressRecord willing) capturing) ⊆ recorders capturing
  /\ recording (app (exec (startRecording deviceless) capturing)) = Some 0%nat.
Proof.
  split.
  - exact (proj2 (proj1 (start_guarded_by_button willing capturing) eq_refl)).
  - exact (proj1 (proj2 (start_guarded_by_button deviceless capturing)
                    0%nat eq_refl (fun _ => eq_refl))).
Defined.

(** The claim C4 as the specification words it fails: after the user has
    denied the permission, on a platform that opens the device,
    [startRecording] has called [Audio.Recording.createAsync], holds a
    capture resource and reports no failure. *)
Lemma denied_start_counterexample :
  let w := mounted denying denied in
  let w' := exec (startRecording denying) w in
  permissionResponse (app w) = Some denied
  /\ permissionResponse (app w') = Some denied
  /\ recording (app w') = Some 0%nat
  /\ isRecording (app w') = true
  /\ recorders w' = {[0%nat]}
  /\ take 5 (trace w')
     = [ConsoleLog "Recording started"; Called Recording_createAsync;
        Called setAudioModeAsync; Called requestPermission;
        ConsoleLog "Requesting permission.."].
Proof. cbv zeta. repeat split; vm_compute; reflexivity. Qed.

Lemma start_without_permission_witness :
  let w := mounted deviceless denied in
  let w' := exec (startRecording deviceless) w in
  recording (app w') = recording (app w)
  /\ isRecording (app w') = isRecording (app w)
  /\ recorders w' = recorders w
  /\ head (trace w') = Some (Alert "Error" "Failed to start recording").
Proof.
  exact (start_without_permission deviceless (mounted deviceless denied)
           ltac:(discriminate)).
Defined.

Lemma playing150_loaded : Loaded playing150 3 uri150 true.
Proof. repeat split; vm_compute; reflexivity. Qed.

Lemma toggle_same_pauses_witness :
  Loaded (exec (playSound willing uri150) playing150) 3 uri150 false
  /\ Loaded (exec (playSound willing uri150)
               (exec (playSound willing uri150) threeCommits)) 3 uri150 false.
Proof.
  split.
  - exact (proj1 (proj1 (toggle_same_pauses willing uri150) playing150 3%nat
                    playing150_loaded eq_refl)).
  - exact (proj1 (proj2 (toggle_same_pauses willing uri150) threeCommits
                    (conj eq_refl eq_refl) willing_reliable)).
Defined.

Lemma toggle_other_switches_witness :
  Loaded (exec (playSound willing uri200) playing150) 4 uri200 true
  /\ players (exec (playSound willing uri200) playing150) !! 3%nat = None.
Proof.
  destruct (toggle_other_switches willing playing150 3 uri150 uri200)
    as (H1 & _ & H2 & _).
  - discriminate.
  - exact playing150_loaded.
  - vm_compute. lia.
  - reflexivity.
  - reflexivity.
  - split; [exact H1 | exact H2].
Defined.

Lemma delete_active_releases_witness :
  let w' := exec (deleteRecording willing uri150) playing150 in
  Empty w'
  /\ players w' !! 3%nat = None
  /\ forall it, it ∈ recordings (app w') -> uri it <> uri150.
Proof.
  assert (dir playing150
          = Some (list_to_set ["rec_100.wav"; "rec_200.wav"; "rec_150.wav"])) as Hdir
    by (vm_compute; reflexivity).
  destruct (delete_active_releases willing playing150 3 uri150 "rec_150.wav" _
              (willing_faithful _ _) willing_reliable eq_refl eq_refl eq_refl Hdir)
    as (H1 & _ & H2 & _ & H3 & _).
  - apply elem_of_list_to_set. do 2 right. left.
  - cbv zeta. split; [exact H1|]. split; [exact H2 | exact H3].
Defined.

(** The claim C8 as the specification words it fails: once the sound has
    played to its end the resource is still loaded and the sound cell
    still holds its handle. *)
Lemma finished_not_released_counterexample :
  let w' := exec (playbackFinished 3) playing150 in
  Empty w'
  /\ sound (app w') = Some 3%nat
  /\ players w' !! 3%nat = Some (mkPlayer uri150 false)
  /\ players w' !! 3%nat <> None.
Proof.
  cbv zeta. repeat split; try (vm_compute; reflexivity).
  vm_compute. discriminate.
Qed.

Lemma finished_clears_identity_witness :
  let w' := exec (playbackFinished 3) playing150 in
  Empty w' /\ players w' !! 3%nat = Some (mkPlayer uri150 false).
Proof.
  destruct (finished_clears_identity playing150 3 uri150 playing150_loaded)
    as (H1 & _ & H2 & _).
  - apply (bool_decide_unpack (3%nat ∈ listeners playing150)). vm_compute. exact I.
  - cbv zeta. split; [exact H1 | exact H2].
Defined.

(** * The directory and the listing, further *)

(** The world a listing ends in: only the view, the directory (created
    when it was missing), the clock and the log can differ. *)
Lemma loadRecordings_shape (P : Platform) (w : World) :
  exists recs d k t,
    loadRecordings P w
    = (Ok tt,
       mkWorld (mkApp (recording (app w)) (sound (app w)) (isRecording (app w))
                      (isPlaying (app w)) (playingUri (app w)) recs
                      (permissionResponse (app w)))
               d (recorders w) (players w) (listeners w) (next_handle w) k t)
    /\ (d = dir w \/ dir w = None /\ d = Some ∅)
    /\ (recs = recordings (app w)
        \/ exists D items,
             d = Some D /\ name <$> items = enumerate P D
             /\ Forall (fun it => uri it = RECORDINGS_DIR P +:+ name it) items
             /\ recs = JS.sort byDate items).
Proof.
  destruct w as [[rec snd isrec isplay puri recs0 perm] d0 rs ps ls nh cr tr].
  unfold loadRecordings, loadRecordings_body, ensureDirExists.
  unfold_ops. simpl.
  destruct (rejects P tr getInfoAsync) eqn:Hinfo; simpl.
  { eexists _, _, _, _. split; [reflexivity|]. split; left; reflexivity. }
  destruct d0 as [D|]; simpl.
  - destruct (rejects P (Called getInfoAsync :: tr) readDirectoryAsync) eqn:Hread;
      simpl.
    { eexists _, _, _, _. split; [reflexivity|]. split; left; reflexivity. }
    match goal with
    | |- context [mapM (toItem P) ?l ?w0] =>
        destruct (mapM_toItem_spec P l w0) as (items & k' & -> & Hk & Hnames & Hok)
    end.
    simpl. eexists _, _, _, _. split; [reflexivity|]. split; [left; reflexivity|].
    right. exists D, items. repeat split; try assumption.
    eapply Forall_impl; [exact Hok|]. intros it [Hloc _]. exact Hloc.
  - destruct (rejects P (Called getInfoAsync :: tr) makeDirectoryAsync) eqn:Hmk;
      simpl.
    { eexists _, _, _, _. split; [reflexivity|]. split; left; reflexivity. }
    match goal with
    | |- context [rejects P ?h readDirectoryAsync] =>
        destruct (rejects P h readDirectoryAsync) eqn:Hread
    end; simpl.
    { eexists _, _, _, _. split; [reflexivity|]. split; [right; split; reflexivity|].
      left. reflexivity. }
    match goal with
    | |- context [mapM (toItem P) ?l ?w0] =>
        destruct (mapM_toItem_spec P l w0) as (items & k' & -> & Hk & Hnames & Hok)
    end.
    simpl. eexists _, _, _, _. split; [reflexivity|].
    split; [right; split; reflexivity|].
    right. exists ∅, items. repeat split; try assumption.
    eapply Forall_impl; [exact Hok|]. intros it [Hloc _]. exact Hloc.
Qed.

(** * Invariants of the component *)

Ltac split_run := split_run_with loadRecordings_shape.





Lemma relisted_located (P : Platform) (D : gset string) (items : list Item) :
  faithful P ->
  name <$> items = enumerate P D ->
  Forall (fun it => uri it = RECORDINGS_DIR P +:+ name it) items ->
  Forall (fun it => uri it = RECORDINGS_DIR P +:+ name it) (JS.sort byDate items)
  /\ NoDup (uri <$> JS.sort byDate items).
Proof.
  intros Hfaith Hnames Hloc.
  pose proof (sort_Permutation byDate items) as Hperm. split.
  - rewrite Hperm. exact Hloc.
  - rewrite Hperm.
    assert (uri <$> items = (fun f => RECORDINGS_DIR P +:+ f) <$> (name <$> items)) as ->.
    { rewrite <- list_fmap_compose. apply Forall_fmap_ext_1.
      eapply Forall_impl; [exact Hloc|]. intros it E. exact E. }
    rewrite Hnames. apply NoDup_fmap_2_strong; [|apply Hfaith].
    intros x y _ _. apply string_app_inj.
Qed.

Lemma catalog_located_step (P : Platform) (a : Action) (w : World) :
  faithful P ->
  catalog_located P w -> catalog_located P (exec (perform P a) w).
Proof.
  intros Hfaith.
  destruct w as [[rec snd isrec isplay puri recs0 perm] d0 rs ps ls nh cr tr].
  unfold catalog_located. intros H.
  destruct a; unfold_handlers; unfold_ops; split_run.
  all: try exact H.
  all: match goal with
       | Hr : _ \/ _ |- _ =>
           destruct Hr as [->|(D & items & _ & Hnames & Hloc & ->)];
           [exact H | exact (relisted_located P D items Hfaith Hnames Hloc)]
       end.
Qed.

(** * Reachable states, and the handlers one by one *)

Lemma reachable_invariant (P : Platform) (I : World -> Prop) :
  (forall w, pristine w -> I w) ->
  (forall a w, I w -> I (exec (perform P a) w)) ->
  forall w, reachable P w -> I w.
Proof. intros Hinit Hstep w Hw. induction Hw; auto. Qed.

Lemma run_reachable (P : Platform) (actions : list Action) (w : World) :
  reachable P w -> reachable P (run P actions w).
Proof.
  revert w. induction actions as [|a actions IH]; intros w Hw; [exact Hw|].
  apply IH. apply reachable_perform, Hw.
Qed.

Lemma busy_reachable : reachable willing busy.
Proof. apply run_reachable, reachable_pristine. repeat split. Qed.








Lemma filter_none {A} (Q : A -> Prop) `{forall x, Decision (Q x)} (l : list A) :
  (forall x, x ∈ l -> ~ Q x) -> filter Q l = [].
Proof.
  induction l as [|x l IH]; intros Hl; [reflexivity|].
  rewrite filter_cons. destruct (decide (Q x)) as [Hq|_].
  - exfalso. apply (Hl x); [left|exact Hq].
  - apply IH. intros y Hy. apply Hl. right. exact Hy.
Qed.

Lemma pause_icon_iff (s : AppState) (it : Item) :
  playIcon (renderItem s it) = "pause"
  <-> isPlaying s = true /\ playingUri s = Some (uri it).
Proof.
  unfold renderItem. simpl. destruct (isPlaying s); simpl.
  - destruct (bool_decide (playingUri s = Some (uri it))) eqn:E.
    + apply bool_decide_eq_true in E. split; auto.
    + apply bool_decide_eq_false in E. split; [discriminate|]. intros [_ H]. contradiction.
  - split; [discriminate|]. intros [H _]. discriminate.
Qed.

Lemma one_pause_icon (s : AppState) (l : list Item) :
  NoDup (uri <$> l) ->
  (length (filter (fun row => playIcon row = "pause") (renderItem s <$> l)) <= 1)%nat.
Proof.
  induction l as [|it l IH]; intros Hnd; [simpl; lia|].
  rewrite fmap_cons in Hnd. apply NoDup_cons in Hnd as [Hnotin Hnd].
  rewrite fmap_cons, filter_cons.
  destruct (decide (playIcon (renderItem s it) = "pause")) as [Hp|_]; [|auto].
  rewrite filter_none; [simpl; lia|].
  intros row Hrow Hpause. apply list_elem_of_fmap in Hrow as (it' & -> & Hit').
  apply pause_icon_iff in Hp as [_ Hp]. apply pause_icon_iff in Hpause as [_ Hp'].
  apply Hnotin. apply list_elem_of_fmap. exists it'. split; [congruence|exact Hit'].
Qed.

(** X21: in every reachable state, when the directory reports each entry
    once, every listed recording lies in the recordings directory under
    its own name, no two rows share a key, and at most one row shows the
    pause icon. *)
Theorem reachable_catalog_located (P : Platform) (w : World) :
  faithful P -> reachable P w ->
  catalog_located P w
  /\ (length (filter (fun row => playIcon row = "pause") (renderList (app w))) <= 1)%nat.
Proof.
  intros Hfaith Hw.
  assert (catalog_located P w) as Hcat.
  { revert w Hw. apply reachable_invariant.
    - intros [a ? ? ? ? ? ? ?] (Happ & _). simpl in Happ. subst a.
      split; simpl; constructor.
    - intros a w0. apply catalog_located_step, Hfaith. }
  split; [exact Hcat|]. apply one_pause_icon, Hcat.
Qed.

Lemma reachable_catalog_located_witness :
  catalog_located willing busy.
Proof.
  exact (proj1 (reachable_catalog_located willing busy (willing_faithful _ _) busy_reachable)).
Defined.

(** X1: [ensureDirExists] never touches a directory that exists: it only
    queries it, whatever else fails; a missing directory is created
    empty, once: a second run only queries. *)
Theorem ensureDirExists_once (P : Platform) (w : World) :
  (forall D, dir w = Some D ->
     rejects P (trace w) getInfoAsync = false ->
     ensureDirExists P w = (Ok tt, with_trace (Called getInfoAsync :: trace w) w))
  /\ (forall D, dir w = Some D -> dir (exec (ensureDirExists P) w) = Some D)
  /\ (reliable P ->
      dir w = None ->
      let w1 := exec (ensureDirExists P) w in
      dir w1 = Some ∅
      /\ trace w1 = ConsoleLog "Recordings directory created"
                    :: Called makeDirectoryAsync :: Called getInfoAsync :: trace w
      /\ exec (ensureDirExists P) w1 = with_trace (Called getInfoAsync :: trace w1) w1).
Proof.
  destruct w as [a d0 rs ps ls nh cr tr].
  unfold ensureDirExists. unfold_ops. simpl. split; [|split].
  - intros D -> ->. reflexivity.
  - intros D ->. destruct (rejects P tr getInfoAsync); reflexivity.
  - intros Hrel ->. rewrite !Hrel. simpl. rewrite !Hrel. repeat split; reflexivity.
Qed.

Lemma ensureDirExists_once_witness :
  dir (exec (ensureDirExists willing) initialWorld) = Some ∅
  /\ dir (exec (ensureDirExists willing) strayFile) = Some {["rec_abc.wav"]}.
Proof.
  split.
  - exact (proj1 (proj2 (proj2 (ensureDirExists_once willing initialWorld))
                    willing_reliable eq_refl)).
  - exact (proj1 (proj2 (ensureDirExists_once willing strayFile)) _ eq_refl).
Defined.

(** X2: [loadRecordings] never rejects, adds no file and removes none
    (at most it creates the missing directory), and leaves the capture
    and playback sessions and the permission as they were. *)
Theorem list_never_rejects (P : Platform) (w : World) :
  fst (loadRecordings P w) = Ok tt
  /\ (dir (exec (loadRecordings P) w) = dir w
      \/ dir w = None /\ dir (exec (loadRecordings P) w) = Some ∅)
  /\ sessions_kept w (exec (loadRecordings P) w).
Proof.
  destruct (loadRecordings_shape P w) as (recs & d & k & t & Hrun & Hd & _).
  unfold exec. rewrite Hrun. simpl. split; [reflexivity|]. split.
  - destruct Hd as [->|[Hn ->]]; [left; reflexivity|right; split; [exact Hn|reflexivity]].
  - repeat split.
Qed.




(** X4: for any directory whose names all carry a numeric segment, equal
    timestamps included, the listing is in descending order of
    timestamp. *)
Theorem list_descending_with_ties (P : Platform) (w : World) (D : gset string) :
  faithful P -> dir w = Some D -> listing_answered P w ->
  (forall f, f ∈ D -> numericName f) ->
  let listing := recordings (app (exec (loadRecordings P) w)) in
  StronglySorted (key_ge keyOf) listing /\ Forall timestamped listing.
Proof.
  intros Hfaith Hdir Hans Hnum listing.
  destruct (loadRecordings_ok P w D Hdir Hans)
    as (items & k' & Hmap & Hk & Hnames & Hok & Hrun).
  assert (listing = JS.sort byDate items) as ->.
  { unfold listing, exec at 1. rewrite Hrun. reflexivity. }
  assert (Forall timestamped items) as Hts.
  { rewrite Forall_forall in Hok. apply Forall_forall. intros it Hit.
    assert (name it ∈ D) as HinD.
    { apply (Hfaith D). rewrite <- Hnames. apply list_elem_of_fmap. eauto. }
    destruct (Hnum _ HinD) as (c & s & t & Hseg & Hsafe & Hval).
    destruct (Hok it Hit) as [_ Hdate]. rewrite Hseg in Hdate.
    exists t. split; [exact Hsafe|]. rewrite Hdate. exact Hval. }
  split.
  - apply sort_sorted, finiteDate_descending.
    eapply Forall_impl; [exact Hts|]. apply timestamped_finite.
  - rewrite (sort_Permutation byDate items). exact Hts.
Qed.

Lemma list_descending_with_ties_witness :
  StronglySorted (key_ge keyOf)
    (recordings (app (exec (loadRecordings willing) mixedNames))).
Proof.
  refine (proj1 (list_descending_with_ties willing mixedNames _
                   (willing_faithful _ _) eq_refl (conj eq_refl eq_refl) _)).
  intros f Hf. rewrite !elem_of_union, !elem_of_singleton in Hf.
  destruct Hf as [[-> | ->] | ->].
  - exists "5"%char, ""%string, 5%Z. repeat split; vm_compute; reflexivity.
  - exists "5"%char, ""%string, 5%Z. repeat split; vm_compute; reflexivity.
  - exists "7"%char, ""%string, 7%Z. repeat split; vm_compute; reflexivity.
Defined.

(** X5: the name given to a committed file encodes its time: cutting
    the segment out of [rec_<t><ext>] gives back the digits of [t] on
    every platform, they read back as [t], and two commits get the same
    name only at the same millisecond. *)
Theorem filename_round_trip (P : Platform) (t : Z) :
  timestampSegment (newFilename P t) = Some (JS.NumberToString t)
  /\ JS.StringToNumber (JS.NumberToString t) = JS.Num (inject_Z t)
  /\ (forall t', newFilename P t = newFilename P t' -> t = t').
Proof.
  split; [apply timestampSegment_newFilename|].
  split; [apply StringToNumber_NumberToString|].
  intros t'. apply newFilename_inj.
Qed.

Lemma filename_round_trip_witness :
  timestampSegment "rec_1700000000000.wav" = Some "1700000000000"
  /\ JS.StringToNumber "1700000000000" = JS.Num (inject_Z 1700000000000).
Proof.
  split.
  - exact (proj1 (filename_round_trip willing 1700000000000)).
  - exact (proj1 (proj2 (filename_round_trip willing 1700000000000))).
Defined.

Lemma spanRadix_digits_dot (ds rest : string) :
  string_forallb isDecimalDigit ds = true ->
  spanRadix 10 (ds +:+ String "." rest) = (ds, String "." rest).
Proof.
  induction ds as [|c ds IH]; [reflexivity|].
  change (String c ds +:+ String "." rest) with (String c (ds +:+ String "." rest)).
  simpl. unfold isDecimalDigit at 1. intros [Hc Hds]%andb_prop.
  destruct (JS.digitValue 10 c); [|discriminate]. rewrite (IH Hds). reflexivity.
Qed.

Lemma parseInt_digits_dot (c : ascii) (ds rest : string) (m : N) :
  string_forallb isDecimalDigit (String c ds) = true ->
  JS.digitsValue 10 0 (String c ds) = Some m ->
  parseInt (String c ds +:+ String "." rest) = JS.Num (inject_Z (Z.of_N m))
  /\ parseInt (String "-" (String c ds +:+ String "." rest))
     = JS.Num (- inject_Z (Z.of_N m)).
Proof.
  intros Hall Hm.
  assert (isDecimalDigit c = true) as Hc.
  { simpl in Hall. apply andb_prop in Hall as [? _]. assumption. }
  pose proof (spanRadix_digits_dot _ rest Hall) as Hspan.
  change (String c ds +:+ String "." rest) with (String c (ds +:+ String "." rest)) in *.
  assert (JS.trimStart (String c (ds +:+ String "." rest))
          = String c (ds +:+ String "." rest)) as Htrim.
  { simpl. rewrite (digit_not_whitespace c Hc). reflexivity. }
  assert (JS.takeSign (String c (ds +:+ String "." rest))
          = (false, String c (ds +:+ String "." rest))) as Hsign.
  { apply digit_not_sign, Hc. }
  assert (match String c (ds +:+ String "." rest) with
          | String "0" (String x body) =>
              if Ascii.eqb x "x" || Ascii.eqb x "X"
              then (16%N, body) else (10%N, String c (ds +:+ String "." rest))
          | _ => (10%N, String c (ds +:+ String "." rest))
          end = (10%N, String c (ds +:+ String "." rest))) as Hradix.
  { destruct c as [[] [] [] [] [] [] [] []]; try reflexivity.
    destruct ds as [|x ds]; [reflexivity|].
    change (String x ds +:+ String "." rest) with (String x (ds +:+ String "." rest)).
    simpl in Hall. apply andb_prop in Hall as [Hx _].
    destruct x as [[] [] [] [] [] [] [] []]; try reflexivity;
      vm_compute in Hx; discriminate. }
  split.
  - unfold parseInt. rewrite Htrim, Hsign, Hradix, Hspan, Hm. reflexivity.
  - unfold parseInt.
    change (JS.trimStart (String "-" (String c (ds +:+ String "." rest))))
      with (String "-" (String c (ds +:+ String "." rest))).
    change (JS.takeSign (String "-" (String c (ds +:+ String "." rest))))
      with (true, String c (ds +:+ String "." rest)).
    cbv beta iota. rewrite Hradix, Hspan, Hm. reflexivity.
Qed.

Lemma secondPiece_newFilename (P : Platform) (t : Z) :
  secondPiece (newFilename P t) = JS.NumberToString t +:+ getFileExtension P.
Proof.
  destruct (getFileExtension_shape P) as (rest & Hext & Hno).
  unfold secondPiece, newFilename.
  change (JS.split "_" ("rec_" +:+ JS.NumberToString t +:+ getFileExtension P))
    with ("rec" :: JS.split "_" (JS.NumberToString t +:+ getFileExtension P)).
  rewrite split_no_sep; [reflexivity|].
  rewrite string_forallb_app, Hno, NumberToString_no; [reflexivity|reflexivity|discriminate].
Qed.

(** X6: the time a row displays, [parseInt(item.name.split('_')[1])], is
    the commit time for a recording the app wrote, and the row's key is
    its location; for a file whose name has no ['_'] it is [NaN], so the
    row reads as an invalid date although the list dated the file by the
    clock. *)
Theorem row_shows_commit_time (P : Platform) (s : AppState) :
  (forall t : Z,
      fileDate (renderItem s (recordingOf P t)) = JS.Num (inject_Z t)
      /\ key (renderItem s (recordingOf P t)) = RECORDINGS_DIR P +:+ newFilename P t)
  /\ (forall it : Item,
        string_forallb (isNot "_") (name it) = true ->
        fileDate (renderItem s it) = JS.NaN).
Proof.
  split.
  - intros t. split; [|reflexivity].
    unfold renderItem, recordingOf. cbn [fileDate name].
    rewrite secondPiece_newFilename.
    destruct (getFileExtension_shape P) as (rest & -> & _).
    unfold JS.NumberToString. destruct t as [|p|p]; simpl NilEmpty.string_of_int.
    + reflexivity.
    + destruct (to_uint_string p) as (c & ds & E).
      pose proof (uint_all_digits (Pos.to_uint p)) as Hall.
      pose proof (digitsValue_uint (Pos.to_uint p)) as Hm.
      change (N.of_uint (Pos.to_uint p)) with (Pos.of_uint (Pos.to_uint p)) in Hm.
      rewrite DecimalPos.Unsigned.of_to in Hm. rewrite E in *.
      exact (proj1 (parseInt_digits_dot c ds rest _ Hall Hm)).
    + destruct (to_uint_string p) as (c & ds & E).
      pose proof (uint_all_digits (Pos.to_uint p)) as Hall.
      pose proof (digitsValue_uint (Pos.to_uint p)) as Hm.
      change (N.of_uint (Pos.to_uint p)) with (Pos.of_uint (Pos.to_uint p)) in Hm.
      rewrite DecimalPos.Unsigned.of_to in Hm. rewrite E in *.
      exact (proj2 (parseInt_digits_dot c ds rest _ Hall Hm)).
  - intros it Hno. unfold renderItem, secondPiece. cbn [fileDate].
    rewrite (split_no_sep _ _ Hno). reflexivity.
Qed.

Lemma row_shows_commit_time_witness :
  fileDate (renderItem initialApp (mkItem "memo.wav" "file:///doc/recordings/memo.wav" (DateNum 1000)))
  = JS.NaN.
Proof.
  exact (proj2 (row_shows_commit_time willing initialApp)
           (mkItem "memo.wav" "file:///doc/recordings/memo.wav" (DateNum 1000)) eq_refl).
Defined.

(** X7: when the platform answers, stopping a capture releases its
    resource, clears the handle and the flag, moves the file under the
    name of the clock reading, and the reloaded list shows that
    recording. *)
Theorem stop_commits_recording (P : Platform) (w : World) (r : nat) (D : gset string) :
  faithful P -> reliable P ->
  recording (app w) = Some r -> dir w = Some D ->
  let f := newFilename P (now P (clock_reads w)) in
  let w' := exec (stopRecording P) w in
  dir w' = Some ({[f]} ∪ D)
  /\ recording (app w') = None
  /\ isRecording (app w') = false
  /\ recorders w' = recorders w ∖ {[r]}
  /\ exists it, it ∈ recordings (app w')
                /\ it = recordingOf P (now P (clock_reads w)).
Proof.
  intros Hfaith Hrel Hr Hdir f w'. subst w'.
  unfold stopRecording. unfold_ops. rewrite Hr. simpl.
  rewrite !Hrel. simpl. rewrite stripPrefix_app, Hdir. simpl.
  match goal with
  | |- context [loadRecordings P ?w0] =>
      destruct (loadRecordings_ok P w0 ({[f]} ∪ D))
        as (items & k' & _ & _ & Hnames & Hok & ->);
      [reflexivity | split; apply Hrel |]
  end.
  simpl. do 4 (split; [reflexivity|]).
  assert (f ∈ name <$> items) as Hin.
  { rewrite Hnames. apply (Hfaith ({[f]} ∪ D)).
    apply elem_of_union. left. apply elem_of_singleton. reflexivity. }
  apply list_elem_of_fmap in Hin as (it & Hname & Hit).
  exists it. split; [rewrite (sort_Permutation byDate items); exact Hit|].
  rewrite Forall_forall in Hok. destruct (Hok it Hit) as [Hloc Hdate].
  rewrite <- Hname in Hloc, Hdate. unfold f in Hdate.
  rewrite timestampSegment_newFilename in Hdate.
  destruct (NumberToString_nonempty (now P (clock_reads w))) as (c & s & E).
  rewrite E in Hdate. destruct it as [n u d]. simpl in *. subst n u d.
  unfold recordingOf. rewrite E. reflexivity.
Qed.

Lemma stop_commits_recording_witness :
  recordingOf willing 100 ∈ recordings (app (exec (stopRecording willing) capturing)).
Proof.
  destruct (stop_commits_recording willing capturing 0 ∅ (willing_faithful _ _)
              willing_reliable eq_refl eq_refl) as (_ & _ & _ & _ & it & Hit & ->).
  exact Hit.
Defined.

(** X8: when the move of the captured file fails, [stopRecording] still
    ends the capture (resource released, handle and flag cleared) and
    does not reject; the directory and the list are unchanged, the list
    is not reloaded and the error is logged. *)
Theorem stop_save_failure (P : Platform) (w : World) (r : nat) :
  recording (app w) = Some r ->
  let stopped := Called (stopAndUnloadAsync r) :: ConsoleLog "Stopping recording.." :: trace w in
  let move := moveAsync (getURI P r)
                (RECORDINGS_DIR P +:+ newFilename P (now P (clock_reads w))) in
  rejects P (ConsoleLog "Stopping recording.." :: trace w) (stopAndUnloadAsync r) = false ->
  rejects P stopped move = true ->
  let w' := exec (stopRecording P) w in
  fst (stopRecording P w) = Ok tt
  /\ recording (app w') = None
  /\ isRecording (app w') = false
  /\ recorders w' = recorders w ∖ {[r]}
  /\ dir w' = dir w
  /\ recordings (app w') = recordings (app w)
  /\ trace w' = ConsoleError "Error saving file" :: Called move :: stopped.
Proof.
  intros Hr stopped move Hstop Hmove w'. subst w' stopped move.
  unfold stopRecording. unfold_ops. rewrite Hr. simpl.
  rewrite Hstop. simpl. rewrite Hmove. simpl. repeat split; reflexivity.
Qed.

(** X9: when the platform fails to stop the capture, [stopRecording]
    rejects; the flag is already cleared but the handle stays stored and
    the resource open, nothing is moved, and the record button now calls
    [startRecording]. *)
Theorem stop_failure_keeps_handle (P : Platform) (w : World) (r : nat) :
  recording (app w) = Some r ->
  rejects P (ConsoleLog "Stopping recording.." :: trace w) (stopAndUnloadAsync r) = true ->
  let w' := exec (stopRecording P) w in
  fst (stopRecording P w) = Throw (Rejected (stopAndUnloadAsync r))
  /\ recording (app w') = Some r
  /\ isRecording (app w') = false
  /\ recorders w' = recorders w
  /\ dir w' = dir w
  /\ clock_reads w' = clock_reads w
  /\ recordings (app w') = recordings (app w)
  /\ onPressRecord P w' = startRecording P w'.
Proof.
  intros Hr Hstop w'. subst w'.
  unfold onPressRecord, stopRecording. unfold_ops. rewrite Hr. simpl.
  rewrite Hstop. simpl. rewrite Hr. repeat split; reflexivity.
Qed.

(** X10: [startRecording], [playSound] and [deleteRecording] catch every
    failure: they never reject.  [stopRecording] rejects only when
    stopping the capture does. *)
Theorem handlers_never_reject (P : Platform) (w : World) (target : string) :
  fst (startRecording P w) = Ok tt
  /\ fst (playSound P target w) = Ok tt
  /\ fst (deleteRecording P target w) = Ok tt
  /\ (fst (stopRecording P w) <> Ok tt ->
      exists r, recording (app w) = Some r
                /\ fst (stopRecording P w) = Throw (Rejected (stopAndUnloadAsync r))).
Proof.
  destruct w as [[rec snd isrec isplay puri recs0 perm] d0 rs ps ls nh cr tr].
  split; [|split; [|split]].
  - unfold_handlers; unfold_ops; split_run; reflexivity.
  - unfold_handlers; unfold_ops; split_run; reflexivity.
  - unfold_handlers; unfold_ops; split_run; reflexivity.
  - unfold_handlers; unfold_ops; split_run; intros Hne;
      try (exfalso; apply Hne; reflexivity).
    all: eexists; split; reflexivity.
Qed.

Lemma stop_save_failure_witness :
  let w := exec (startRecording fullDisk) (mounted fullDisk granted) in
  recording (app (exec (stopRecording fullDisk) w)) = None
  /\ recordings (app (exec (stopRecording fullDisk) w)) = recordings (app w).
Proof.
  destruct (stop_save_failure fullDisk
              (exec (startRecording fullDisk) (mounted fullDisk granted)) 0
              eq_refl eq_refl eq_refl) as (_ & H1 & _ & _ & _ & H2 & _).
  split; [exact H1 | exact H2].
Defined.

Lemma stop_failure_keeps_handle_witness :
  let w := exec (startRecording stuckDevice) (mounted stuckDevice granted) in
  recording (app (exec (stopRecording stuckDevice) w)) = Some 0%nat
  /\ isRecording (app (exec (stopRecording stuckDevice) w)) = false.
Proof.
  destruct (stop_failure_keeps_handle stuckDevice
              (exec (startRecording stuckDevice) (mounted stuckDevice granted)) 0
              eq_refl eq_refl) as (_ & H1 & H2 & _).
  split; [exact H1 | exact H2].
Defined.

Lemma handlers_never_reject_witness :
  exists r, recording (app (exec (startRecording stuckDevice) (mounted stuckDevice granted)))
            = Some r.
Proof.
  destruct (proj2 (proj2 (proj2 (handlers_never_reject stuckDevice
              (exec (startRecording stuckDevice) (mounted stuckDevice granted)) ""))))
    as (r & Hr & _).
  - vm_compute. discriminate.
  - exists r. exact Hr.
Defined.

(** X11: with the permission granted [startRecording] asks for nothing:
    it sets the audio mode and opens the device; if either call rejects
    the state is untouched and the alert is raised, otherwise the new
    handle is stored and the flag set. *)
Theorem start_with_permission (P : Platform) (w : World) :
  permissionResponse (app w) = Some granted ->
  let w' := exec (startRecording P) w in
  let failed := Alert "Error" "Failed to start recording"
                :: [ConsoleError "Failed to start recording"] in
  if rejects P (trace w) setAudioModeAsync then
    app w' = app w /\ recorders w' = recorders w /\ next_handle w' = next_handle w
    /\ trace w' = failed ++ Called setAudioModeAsync :: trace w
  else if rejects P (Called setAudioModeAsync :: trace w) Recording_createAsync then
    app w' = app w /\ recorders w' = recorders w /\ next_handle w' = next_handle w
    /\ trace w' = failed ++ Called Recording_createAsync
                  :: Called setAudioModeAsync :: trace w
  else
    recording (app w') = Some (next_handle w)
    /\ isRecording (app w') = true
    /\ recorders w' = {[next_handle w]} ∪ recorders w
    /\ next_handle w' = S (next_handle w)
    /\ permissionResponse (app w') = Some granted
    /\ trace w' = ConsoleLog "Recording started" :: Called Recording_createAsync
                  :: Called setAudioModeAsync :: trace w.
Proof.
  destruct w as [[rec snd isrec isplay puri recs0 perm] d0 rs ps ls nh cr tr].
  simpl. intros ->.
  unfold startRecording, startRecording_body. unfold_ops. simpl.
  destruct (rejects P tr setAudioModeAsync); simpl; [repeat split; reflexivity|].
  destruct (rejects P (Called setAudioModeAsync :: tr) Recording_createAsync); simpl;
    repeat split; reflexivity.
Qed.

Lemma start_with_permission_witness :
  recording (app capturing) = Some 0%nat /\ isRecording (app capturing) = true.
Proof.
  destruct (start_with_permission willing (mounted willing granted) eq_refl)
    as (H1 & H2 & _).
  split; [exact H1 | exact H2].
Defined.

(** X12: when loading the sound fails, [playSound] raises its alert and
    changes no state cell; the sound that was loaded before has already
    been unloaded, while the cells still name it (and still say it plays,
    if it did). *)
Theorem play_load_failure (P : Platform) (w : World) (target : string) :
  sound (app w) = None \/ playingUri (app w) <> Some target \/ isPlaying (app w) = false ->
  let unloaded := match sound (app w) with
                  | Some h => Called (unloadAsync h) :: trace w
                  | None => trace w
                  end in
  (forall h, sound (app w) = Some h -> rejects P (trace w) (unloadAsync h) = false) ->
  rejects P unloaded (Sound_createAsync target) = true ->
  let w' := exec (playSound P target) w in
  app w' = app w
  /\ players w' = match sound (app w) with
                  | Some h => delete h (players w)
                  | None => players w
                  end
  /\ trace w' = Alert "Error" "Could not play audio file"
                :: ConsoleError "Error playing sound"
                :: Called (Sound_createAsync target) :: unloaded.
Proof.
  destruct w as [[rec snd isrec isplay puri recs0 perm] d0 rs ps ls nh cr tr].
  simpl. intros Hcond Hunload Hcreate.
  unfold playSound. unfold_ops. simpl.
  destruct snd as [h|]; simpl in *.
  - assert (bool_decide (puri = Some target) && isplay = false) as ->.
    { destruct Hcond as [H|[H|H]]; [discriminate| |].
      - rewrite bool_decide_eq_false_2 by exact H. reflexivity.
      - rewrite H. apply andb_false_r. }
    simpl. rewrite (Hunload h eq_refl). simpl. rewrite Hcreate. repeat split; reflexivity.
  - rewrite Hcreate. repeat split; reflexivity.
Qed.

Lemma play_load_failure_witness :
  let w := playing150 in
  let w' := exec (playSound noCodec uri200) w in
  app w' = app w /\ players w' = delete 3%nat (players w).
Proof.
  destruct (play_load_failure noCodec playing150 uri200) as (H1 & H2 & _).
  - right. left. intros H. vm_compute in H. discriminate H.
  - intros h _. reflexivity.
  - reflexivity.
  - split; [exact H1 | exact H2].
Defined.

(** X13: playback and capture do not touch each other: [playSound]
    leaves the capture session, the list and the directory alone;
    [startRecording] leaves the playback session, the list and the
    directory alone; [stopRecording] leaves the playback session alone;
    [deleteRecording] leaves the capture session alone. *)
Theorem sessions_independent (P : Platform) (w : World) (target : string) :
  (let w' := exec (playSound P target) w in
   recording (app w') = recording (app w)
   /\ isRecording (app w') = isRecording (app w)
   /\ recorders w' = recorders w
   /\ recordings (app w') = recordings (app w)
   /\ dir w' = dir w)
  /\ (let w' := exec (startRecording P) w in
      sound (app w') = sound (app w)
      /\ isPlaying (app w') = isPlaying (app w)
      /\ playingUri (app w') = playingUri (app w)
      /\ players w' = players w
      /\ listeners w' = listeners w
      /\ recordings (app w') = recordings (app w)
      /\ dir w' = dir w)
  /\ (let w' := exec (stopRecording P) w in
      sound (app w') = sound (app w)
      /\ isPlaying (app w') = isPlaying (app w)
      /\ playingUri (app w') = playingUri (app w)
      /\ players w' = players w
      /\ listeners w' = listeners w)
  /\ (let w' := exec (deleteRecording P target) w in
      recording (app w') = recording (app w)
      /\ isRecording (app w') = isRecording (app w)
      /\ recorders w' = recorders w).
Proof.
  destruct w as [[rec snd isrec isplay puri recs0 perm] d0 rs ps ls nh cr tr].
  split; [|split; [|split]].
  - unfold_handlers; unfold_ops; split_run; repeat split; reflexivity.
  - unfold_handlers; unfold_ops; split_run; repeat split; reflexivity.
  - unfold_handlers; unfold_ops; split_run; repeat split; reflexivity.
  - unfold_handlers; unfold_ops; split_run; repeat split; reflexivity.
Qed.

Lemma difference_union_singleton (f : string) (D : gset string) :
  f ∉ D -> ({[f]} ∪ D) ∖ {[f]} = D.
Proof.
  intros Hf. apply set_eq. intros x.
  rewrite elem_of_difference, elem_of_union, elem_of_singleton. split.
  - intros [[->|Hx] Hne]; [contradiction|exact Hx].
  - intros Hx. split; [right; exact Hx|]. intros ->. contradiction.
Qed.

(** Deleting a file that is in the directory, on a platform that answers. *)
Lemma deleteRecording_removes (P : Platform) (w : World) (f : string) (D : gset string) :
  faithful P -> reliable P ->
  dir w = Some D -> f ∈ D ->
  let w' := exec (deleteRecording P (RECORDINGS_DIR P +:+ f)) w in
  dir w' = Some (D ∖ {[f]})
  /\ name <$> recordings (app w') ≡ₚ elements (D ∖ {[f]})
  /\ (forall it, it ∈ recordings (app w') -> uri it <> RECORDINGS_DIR P +:+ f).
Proof.
  intros Hfaith Hrel Hdir Hf w'. subst w'.
  assert (forall items,
             name <$> items = enumerate P (D ∖ {[f]}) ->
             Forall (fun it => uri it = RECORDINGS_DIR P +:+ name it) items ->
             name <$> JS.sort byDate items ≡ₚ elements (D ∖ {[f]})
             /\ (forall it, it ∈ JS.sort byDate items -> uri it <> RECORDINGS_DIR P +:+ f))
    as Hlist.
  { intros items Hnames Hloc. split.
    - rewrite (sort_Permutation byDate items), Hnames.
      apply NoDup_Permutation; [apply Hfaith | apply NoDup_elements |].
      intros x. rewrite elem_of_elements. apply Hfaith.
    - intros it Hit Heq. rewrite (sort_Permutation byDate items) in Hit.
      rewrite Forall_forall in Hloc. rewrite (Hloc it Hit) in Heq.
      apply string_app_inj in Heq.
      assert (name it ∈ enumerate P (D ∖ {[f]})) as Hin.
      { rewrite <- Hnames. apply list_elem_of_fmap. eauto. }
      apply (Hfaith (D ∖ {[f]})) in Hin. rewrite Heq in Hin.
      apply elem_of_difference in Hin as [_ Hnot].
      apply Hnot, elem_of_singleton. reflexivity. }
  unfold deleteRecording. unfold_ops. simpl.
  destruct (sound (app w)) as [h|]; simpl;
    [destruct (bool_decide (playingUri (app w) = Some (RECORDINGS_DIR P +:+ f))); simpl|];
    rewrite !Hrel; simpl; rewrite stripPrefix_app, Hdir;
    rewrite bool_decide_eq_true_2 by exact Hf; simpl.
  all: match goal with
       | |- context [loadRecordings _ ?w0] =>
           destruct (loadRecordings_ok P w0 (D ∖ {[f]}))
             as (items & k' & _ & _ & Hnames & Hok & ->);
           [reflexivity | split; apply Hrel |]
       end.
  all: simpl; split; [reflexivity|]; apply Hlist; [exact Hnames|].
  all: eapply Forall_impl; [exact Hok|]; intros it [Hloc _]; exact Hloc.
Qed.

(** X14: deleting a recording that is not the active one leaves the
    playback session as it is (nothing is unloaded); when the platform
    answers, the file leaves the directory and the list. *)
Theorem delete_inactive_keeps_playback (P : Platform) (w : World) (target : string) :
  sound (app w) = None \/ playingUri (app w) <> Some target ->
  let w' := exec (deleteRecording P target) w in
  (sound (app w') = sound (app w)
   /\ isPlaying (app w') = isPlaying (app w)
   /\ playingUri (app w') = playingUri (app w)
   /\ players w' = players w
   /\ listeners w' = listeners w)
  /\ (faithful P -> reliable P ->
      forall f D, target = RECORDINGS_DIR P +:+ f -> dir w = Some D -> f ∈ D ->
        dir w' = Some (D ∖ {[f]})
        /\ forall it, it ∈ recordings (app w') -> uri it <> target).
Proof.
  intros Hcond w'. split.
  - subst w'. destruct w as [[rec snd isrec isplay puri recs0 perm] d0 rs ps ls nh cr tr].
    simpl in Hcond. unfold deleteRecording. unfold_ops. simpl.
    destruct snd as [h|]; simpl.
    + rewrite bool_decide_eq_false_2 by (destruct Hcond as [H|H]; [discriminate|exact H]).
      simpl. split_run; repeat split; reflexivity.
    + split_run; repeat split; reflexivity.
  - intros Hfaith Hrel f D -> Hdir Hf.
    destruct (deleteRecording_removes P w f D Hfaith Hrel Hdir Hf) as (H1 & _ & H2).
    split; [exact H1 | exact H2].
Qed.

Lemma delete_inactive_keeps_playback_witness :
  players (exec (deleteRecording willing uri200) playing150) = players playing150.
Proof.
  refine (proj1 (proj2 (proj2 (proj2 (proj1
            (delete_inactive_keeps_playback willing playing150 uri200 _)))))).
  right. intros H. vm_compute in H. discriminate H.
Defined.

(** X15: deleting a file that is not in the directory fails inside the
    handler: the error is logged, the list is not reloaded and the
    directory is unchanged; if it was the active identity its playback
    has been released and cleared all the same. *)
Theorem delete_missing_file (P : Platform) (w : World) (target : string) :
  (forall f D, stripPrefix (RECORDINGS_DIR P) target = Some f -> dir w = Some D -> f ∉ D) ->
  let w' := exec (deleteRecording P target) w in
  recordings (app w') = recordings (app w)
  /\ dir w' = dir w
  /\ clock_reads w' = clock_reads w
  /\ head (trace w') = Some (ConsoleError "Error deleting file")
  /\ (forall h, sound (app w) = Some h -> playingUri (app w) = Some target ->
        rejects P (trace w) (unloadAsync h) = false ->
        players w' = delete h (players w)
        /\ playingUri (app w') = None /\ isPlaying (app w') = false).
Proof.
  destruct w as [[rec snd isrec isplay puri recs0 perm] d0 rs ps ls nh cr tr].
  simpl. intros Hmissing.
  assert (forall w0, dir w0 = d0 ->
    exists w1,
      FileSystem_deleteAsync P target w0 = (Throw (Rejected (deleteAsync target)), w1)
      /\ app w1 = app w0 /\ dir w1 = dir w0 /\ players w1 = players w0
      /\ clock_reads w1 = clock_reads w0) as Hdel.
  { intros w0 Hd0. unfold FileSystem_deleteAsync. unfold_ops. simpl.
    destruct (rejects P (trace w0) (deleteAsync target)); simpl;
      [eexists; repeat split; reflexivity|].
    destruct (stripPrefix (RECORDINGS_DIR P) target) as [f|] eqn:Ef;
      [|eexists; repeat split; reflexivity].
    destruct (dir w0) as [D|] eqn:ED;
      [|eexists; repeat split; first [reflexivity | exact ED]].
    rewrite bool_decide_eq_false_2
      by (apply (Hmissing f D); [reflexivity | symmetry; exact Hd0]).
    eexists; repeat split; first [reflexivity | exact ED]. }
  unfold deleteRecording, tryCatch, exec, rendered, mbind, M_bind. simpl.
  destruct snd as [h|]; simpl.
  - destruct (bool_decide (puri = Some target)) eqn:Eb.
    + unfold sound_unloadAsync, setPlayingUri, setIsPlaying, call, modify, mbind, M_bind.
      simpl. destruct (rejects P tr (unloadAsync h)) eqn:Eu; simpl.
      * do 4 (split; [reflexivity|]). intros h' [= <-] _ Hrej.
        rewrite Hrej in Eu. discriminate.
      * match goal with
        | |- context [FileSystem_deleteAsync P target ?w0] =>
            destruct (Hdel w0 eq_refl) as (w1 & -> & Ha & Hd & Hp & Hc)
        end. simpl. rewrite Ha, Hd, Hp, Hc. simpl.
        do 4 (split; [reflexivity|]). intros h' [= <-] _ _. repeat split; reflexivity.
    + unfold mret, M_ret. simpl.
      match goal with
      | |- context [FileSystem_deleteAsync P target ?w0] =>
          destruct (Hdel w0 eq_refl) as (w1 & -> & Ha & Hd & Hp & Hc)
      end. simpl. rewrite Ha, Hd, Hc. simpl.
      do 4 (split; [reflexivity|]).
      intros h' _ Hp'. apply bool_decide_eq_false in Eb. contradiction.
  - unfold mret, M_ret. simpl.
    match goal with
    | |- context [FileSystem_deleteAsync P target ?w0] =>
        destruct (Hdel w0 eq_refl) as (w1 & -> & Ha & Hd & Hp & Hc)
    end. simpl. rewrite Ha, Hd, Hc. simpl.
    do 4 (split; [reflexivity|]). intros h' [=].
Qed.

Lemma delete_missing_file_witness :
  let w' := exec (deleteRecording willing "file:///doc/recordings/ghost.wav") threeCommits in
  recordings (app w') = recordings (app threeCommits) /\ dir w' = dir threeCommits.
Proof.
  destruct (delete_missing_file willing threeCommits "file:///doc/recordings/ghost.wav")
    as (H1 & H2 & _).
  - intros f D Hf HD. vm_compute in Hf. injection Hf as <-.
    assert (dir threeCommits
            = Some (list_to_set ["rec_100.wav"; "rec_200.wav"; "rec_150.wav"])) as E
      by (vm_compute; reflexivity).
    rewrite E in HD. apply (inj Some) in HD. subst D.
    intros Hin. apply elem_of_list_to_set in Hin.
    rewrite !elem_of_cons, elem_of_nil in Hin.
    destruct Hin as [H|[H|[H|[]]]]; discriminate H.
  - split; [exact H1 | exact H2].
Defined.

(** X16: committing a recording and then deleting it brings the
    directory back to what it was, and the list with it. *)
Theorem commit_then_delete (P : Platform) (w : World) (r : nat) (D : gset string) :
  faithful P -> reliable P ->
  recording (app w) = Some r -> dir w = Some D ->
  let f := newFilename P (now P (clock_reads w)) in
  f ∉ D ->
  let w1 := exec (stopRecording P) w in
  let w2 := exec (deleteRecording P (RECORDINGS_DIR P +:+ f)) w1 in
  dir w1 = Some ({[f]} ∪ D)
  /\ dir w2 = Some D
  /\ name <$> recordings (app w2) ≡ₚ elements D.
Proof.
  intros Hfaith Hrel Hr Hdir f Hf w1 w2.
  destruct (stopRecording_commits P w r D Hrel Hr Hdir) as (Hd1 & _).
  fold f in Hd1. fold w1 in Hd1.
  assert (f ∈ {[f]} ∪ D) as Hin by (apply elem_of_union; left; apply elem_of_singleton; reflexivity).
  destruct (deleteRecording_removes P w1 f _ Hfaith Hrel Hd1 Hin) as (Hd2 & Hnames & _).
  fold w2 in Hd2, Hnames. rewrite difference_union_singleton in Hd2, Hnames by exact Hf.
  split; [exact Hd1|]. split; [exact Hd2|]. exact Hnames.
Qed.

Lemma commit_then_delete_witness :
  dir (exec (deleteRecording willing "file:///doc/recordings/rec_100.wav")
         (exec (stopRecording willing) capturing)) = Some ∅.
Proof.
  refine (proj1 (proj2 (commit_then_delete willing capturing 0 ∅ (willing_faithful _ _)
            willing_reliable eq_refl eq_refl _))).
  apply not_elem_of_empty.
Defined.

(** X17: toggling an identity that is loaded but paused does not resume
    it: the old resource is unloaded and the file is loaded and played
    again from a new resource. *)
Theorem toggle_paused_reloads (P : Platform) (w : World) (h : nat) (id : string) :
  Loaded w h id false ->
  rejects P (trace w) (unloadAsync h) = false ->
  rejects P (Called (unloadAsync h) :: trace w) (Sound_createAsync id) = false ->
  let w' := exec (playSound P id) w in
  sound (app w') = Some (next_handle w)
  /\ playingUri (app w') = Some id
  /\ isPlaying (app w') = true
  /\ players w' = <[next_handle w := mkPlayer id true]> (delete h (players w))
  /\ trace w' = Called (Sound_createAsync id) :: Called (unloadAsync h) :: trace w.
Proof.
  intros (Hsound & Huri & Hplaying & Hloaded) Hunload Hcreate w'. subst w'.
  unfold playSound. unfold_ops. simpl.
  rewrite Hsound, Huri, Hplaying. rewrite andb_false_r. simpl.
  rewrite Hunload. simpl. rewrite Hcreate. simpl.
  repeat split; reflexivity.
Qed.

Lemma toggle_paused_reloads_witness :
  let w := exec (playSound willing uri150) playing150 in
  sound (app (exec (playSound willing uri150) w)) = Some 4%nat.
Proof.
  assert (Loaded (exec (playSound willing uri150) playing150) 3 uri150 false) as HL
    by (repeat split; vm_compute; reflexivity).
  exact (proj1 (toggle_paused_reloads willing _ 3 uri150 HL eq_refl eq_refl)).
Defined.

Example split_demo :
  JS.split "_" "rec_1700000000000.wav" = ["rec"; "1700000000000.wav"]
  /\ JS.split "." "1700000000000.wav" = ["1700000000000"; "wav"]
  /\ JS.split "_" "" = [""].
Proof. repeat split; reflexivity. Qed.

Example StringToNumber_demo :
  JS.StringToNumber "1700000000000" = JS.Num (inject_Z 1700000000000)
  /\ JS.StringToNumber "abc" = JS.NaN
  /\ JS.StringToNumber "  12 " = JS.Num (inject_Z 12)
  /\ JS.StringToNumber "0x1F" = JS.Num (inject_Z 31)
  /\ JS.StringToNumber "-Infinity" = JS.Infinity true
  /\ JS.StringToNumber "12px" = JS.NaN
  /\ JS.StringToNumber "1e3" = JS.Num (inject_Z 1000)
  /\ JS.StringToNumber "-7" = JS.Num (- inject_Z 7)
  /\ JS.StringToNumber "" = JS.Num 0.
Proof. repeat split; vm_compute; reflexivity. Qed.
